(** * A discrete-event (DEVS) simulation kernel: event queue and simulator

    Shallow embedding of [MatthewDBrown-CSC454-Homework5-CPP.cpp].

    Modelling conventions.
    - A simulation time [double r] is a rational number: every finite
      double denotes one, and [==], [>] on finite doubles agree with the
      comparisons of the rationals they denote.  NaN is not modelled;
      the value [+infinity], which only [getNextInternalEvent] returns,
      is [None] of [option Q].  The doubles [-0.0] and [+0.0] denote the
      same rational; [Time::compareTo], the one function that tells
      them apart, takes the sign bits as arguments.
    - The sum [timeElapsed + timeToProcess] of the example machine is
      the exact sum of rationals, where the program rounds to the
      nearest double: the two agree on the runs evaluated here, whose
      sums are small multiples of 1/2.  The count [parts] is an
      unbounded [Z], where the [int] of the program overflows.
    - [int] counters and indices are [Z] and [nat]; the counters of a
      queue stay far below the range of [int].
    - [SimulationModel*] is an address in [N], with [0] for [nullptr].
    - [std::deque<Event*>] is a list of events: events are never changed
      after their construction.
    - An access outside a container, a call through a null or dangling
      pointer and an exception of [std::stoi] end the run with a [Fault]. *)

From Stdlib Require Import String Ascii.
From Stdlib Require Import ZArith NArith QArith Bool List Sorted Lia Lqa.
Import ListNotations.

Open Scope string_scope.
Open Scope Q_scope.
Open Scope nat_scope.
Open Scope list_scope.

(** ** Faults and the error monad *)

Inductive fault : Type :=
| OutOfBounds       (* container access outside [0, size) *)
| NullDereference   (* virtual call through a pointer that is not a live model *)
| InvalidArgument   (* std::stoi found no number *)
| OutOfRange        (* std::stoi found a number outside int *)
| OutOfFuel.        (* the bounded unrolling of a loop was too short *)

Inductive result (A : Type) : Type :=
| Ok (a : A)
| Fault (f : fault).

Arguments Ok {A} a.
Arguments Fault {A} f.

Definition bind {A B : Type} (c : result A) (k : A -> result B) : result B :=
  match c with
  | Ok a => k a
  | Fault f => Fault f
  end.

Declare Scope result_scope.
Delimit Scope result_scope with result.
Notation "x <- c ;; k" := (bind c (fun x => k))
  (at level 100, c at next level, right associativity) : result_scope.
Notation "' p <- c ;; k" := (bind c (fun x => let p := x in k))
  (at level 100, p pattern, c at next level, right associativity) : result_scope.
Open Scope result_scope.

Definition is_ok {A : Type} (c : result A) : bool :=
  match c with Ok _ => true | Fault _ => false end.

(** ** Time *)

Definition Qgtb (x y : Q) : bool := negb (Qle_bool x y).

Record Time : Type := mkTime { getR : Q; getC : Z }.

(** [std::signbit(a - b)] for two real times.  The difference of two
    finite doubles is negative exactly when [a < b]; when [a == b] it is
    a zero, and that zero is [-0.0] only for [a = -0.0] and [b = +0.0].
    The rational a double denotes does not tell the two zeros apart, so
    the sign bits of [a] and [b] are given beside them; they are
    consulted for zeros only. *)
Definition signbit_of_difference (a b : Q) (a_signbit b_signbit : bool) : bool :=
  Qgtb b a
  || (Qeq_bool a 0 && Qeq_bool b 0 && a_signbit && negb b_signbit).

(** [Time::compareTo]: sign of the comparison, primary by [r], then by
    [c].  [this_signbit] and [other_signbit] are the sign bits of
    [this->r] and [other.r]. *)
Definition Time_compareTo (this other : Time)
    (this_signbit other_signbit : bool) : Z :=
  let rComparison :=
    if signbit_of_difference (getR this) (getR other)
         this_signbit other_signbit
    then (-1)%Z
    else if Qeq_bool (getR this) (getR other) then 0%Z else 1%Z in
  if (rComparison =? 0)%Z then (getC this - getC other)%Z else rComparison.

(** [Time::operator==]. *)
Definition Time_eqb (this other : Time) : bool :=
  Qeq_bool (getR this) (getR other) && (getC this =? getC other)%Z.

(** ** Events *)

Definition ptr : Type := N.
Definition nullptr : ptr := 0%N.

Record Event : Type := mkEvent {
  getInput : string;
  getTime : Time;
  getModel : ptr;
  getType : string
}.

Definition InternalEvent (input : string) (time : Time) (model : ptr) : Event :=
  mkEvent input time model "internal".
Definition ExternalEvent (input : string) (time : Time) (model : ptr) : Event :=
  mkEvent input time model "external".
Definition ConfluentEvent (input : string) (time : Time) (model : ptr) : Event :=
  mkEvent input time model "confluent".

(** ** The deque of pending events *)

Definition deque : Type := list Event.

(** [queue[i]]. *)
Definition deque_at (queue : deque) (i : nat) : result Event :=
  match nth_error queue i with
  | Some e => Ok e
  | None => Fault OutOfBounds
  end.

(** [queue[element - 1]] for an [int element]. *)
Definition deque_before (queue : deque) (element : nat) : result Event :=
  match element with
  | O => Fault OutOfBounds
  | S p => deque_at queue p
  end.

(** [queue[i] = e]. *)
Definition deque_set (i : nat) (e : Event) (queue : deque) : result deque :=
  if i <? length queue
  then Ok (firstn i queue ++ e :: skipn (S i) queue)
  else Fault OutOfBounds.

(** [queue.insert(queue.begin() + pos, e)]. *)
Definition deque_insert (pos : nat) (e : Event) (queue : deque) : result deque :=
  if pos <=? length queue
  then Ok (firstn pos queue ++ e :: skipn pos queue)
  else Fault OutOfBounds.

Definition push_back (e : Event) (queue : deque) : deque := queue ++ [e].

(** [queue.pop_front()]. *)
Definition pop_front (queue : deque) : result deque :=
  match queue with
  | [] => Fault OutOfBounds
  | _ :: rest => Ok rest
  end.

Module EventQueue.

Definition scheduleConfluentEvent (existingEvent : Event) (model : ptr) (r : Q)
    (i : nat) (queue : deque) : result deque :=
  let c := getC (getTime existingEvent) in
  let eventTime := mkTime r c in
  let newEvent := ConfluentEvent (getInput existingEvent) eventTime model in
  deque_set i newEvent queue.

(** The inner [while] of [scheduleInternalEvent].  The flag
    [eventHasBeenScheduled] is only set in the branch that leaves the
    loop, so each re-entry tests [element < queue.size() - 1] alone.
    The queue is not empty here, so [size() - 1] does not wrap. *)
Fixpoint scheduleInternalEvent_while (fuel : nat) (r : Q) (model : ptr)
    (i element : nat) (existingEvent : Event) (queue : deque) : result deque :=
  match fuel with
  | O => Fault OutOfFuel
  | S fuel =>
    if element <? length queue - 1 then
      if Qeq_bool (getR (getTime existingEvent)) r then
        if (getModel existingEvent =? model)%N then
          if (getType existingEvent =? "external")%string
          then scheduleConfluentEvent existingEvent model r i queue
          else Ok queue
        else
          let element := S element in
          existingEvent <- deque_at queue element ;;
          scheduleInternalEvent_while fuel r model i element existingEvent queue
      else
        last <- deque_before queue element ;;
        let lastEventR := getR (getTime last) in
        let lastEventC := getC (getTime last) in
        let c := if Qeq_bool lastEventR r then (lastEventC + 1)%Z else 0%Z in
        let eventTime := mkTime r c in
        let newEvent := InternalEvent EmptyString eventTime model in
        deque_insert element newEvent queue
    else Ok queue
  end.

Fixpoint scheduleInternalEvent_for (fuel : nat) (r : Q) (model : ptr)
    (i : nat) (queue : deque) : result deque :=
  match fuel with
  | O => Fault OutOfFuel
  | S fuel =>
    if i <? length queue then
      existingEvent <- deque_at queue i ;;
      if Qeq_bool (getR (getTime existingEvent)) r then
        if (getModel existingEvent =? model)%N then
          if (getType existingEvent =? "external")%string
          then scheduleConfluentEvent existingEvent model r i queue
          else Ok queue
        else
          let element := i in
          let queue :=
            if element =? length queue - 1
            then push_back (InternalEvent EmptyString (mkTime r 0) model) queue
            else queue in
          scheduleInternalEvent_while (length queue) r model i element
            existingEvent queue
      else if Qgtb (getR (getTime existingEvent)) r then
        deque_insert i (InternalEvent EmptyString (mkTime r 0) model) queue
      else scheduleInternalEvent_for fuel r model (S i) queue
    else Ok (push_back (InternalEvent EmptyString (mkTime r 0) model) queue)
  end.

Definition scheduleInternalEvent (r : Q) (model : ptr) (queue : deque)
    : result deque :=
  scheduleInternalEvent_for (S (length queue)) r model 0 queue.

(** The inner [while (!eventHasBeenScheduled)] of [scheduleExternalEvent]. *)
Fixpoint scheduleExternalEvent_while (fuel : nat) (input : string) (r : Q)
    (model : ptr) (i element : nat) (existingEvent : Event) (queue : deque)
    : result deque :=
  match fuel with
  | O => Fault OutOfFuel
  | S fuel =>
    if (getType existingEvent =? "internal")%string then
      if (getModel existingEvent =? model)%N then
        let c := getC (getTime existingEvent) in
        let eventTime := mkTime r c in
        let newEvent := ConfluentEvent input eventTime model in
        deque_set i newEvent queue
      else
        let element := S element in
        existingEvent <- deque_at queue element ;;
        scheduleExternalEvent_while fuel input r model i element
          existingEvent queue
    else
      let element := S element in
      next <- deque_at queue element ;;
      if Qeq_bool (getR (getTime next)) r then
        scheduleExternalEvent_while fuel input r model i element next queue
      else
        let c := (getC (getTime existingEvent) + 1)%Z in
        let eventTime := mkTime r c in
        let newEvent := ExternalEvent input eventTime model in
        deque_insert element newEvent queue
  end.

Fixpoint scheduleExternalEvent_for (fuel : nat) (input : string) (r : Q)
    (model : ptr) (i : nat) (queue : deque) : result deque :=
  match fuel with
  | O => Fault OutOfFuel
  | S fuel =>
    if i <? length queue then
      existingEvent <- deque_at queue i ;;
      if Qeq_bool (getR (getTime existingEvent)) r then
        let element := i in
        scheduleExternalEvent_while (S (length queue)) input r model i element
          existingEvent queue
      else if Qgtb (getR (getTime existingEvent)) r then
        deque_insert i (ExternalEvent input (mkTime r 0) model) queue
      else scheduleExternalEvent_for fuel input r model (S i) queue
    else Ok (push_back (ExternalEvent input (mkTime r 0) model) queue)
  end.

Definition scheduleExternalEvent (input : string) (r : Q) (model : ptr)
    (queue : deque) : result deque :=
  scheduleExternalEvent_for (S (length queue)) input r model 0 queue.

(** The loop of [getNextEvents]; it returns the extracted events and
    the queue that is left. *)
Fixpoint getNextEvents_while (fuel : nat) (r nextR : Q) (events queue : deque)
    : result (deque * deque) :=
  match fuel with
  | O => Fault OutOfFuel
  | S fuel =>
    if Qeq_bool nextR r then
      front <- deque_at queue 0 ;;
      let events := push_back front events in
      queue <- pop_front queue ;;
      let nextR :=
        match queue with
        | [] => (-1)%Q
        | e :: _ => getR (getTime e)
        end in
      getNextEvents_while fuel r nextR events queue
    else Ok (events, queue)
  end.

Definition getNextEvents (queue : deque) : result (deque * deque) :=
  match queue with
  | [] => Ok ([], queue)
  | front :: _ =>
    let r := getR (getTime front) in
    let nextR := r in
    getNextEvents_while (S (S (length queue))) r nextR [] queue
  end.

Definition timeAdvance (queue : deque) : result Q :=
  front <- deque_at queue 0 ;; Ok (getR (getTime front)).

Definition isEmpty (queue : deque) : bool :=
  match queue with [] => true | _ => false end.

End EventQueue.

Import EventQueue.

(** ** Ordered maps ([std::map])

    A [std::map] is the list of its entries in ascending key order.  Two
    keys are the same entry when neither is less than the other. *)

Section OrderedMap.
Context {K V : Type}.
Variable ltb : K -> K -> bool.

Fixpoint map_find (k : K) (m : list (K * V)) : option V :=
  match m with
  | [] => None
  | (k', v) :: rest =>
    if ltb k k' then None
    else if ltb k' k then map_find k rest
    else Some v
  end.

(** [m[k] = v]: an existing entry keeps its key. *)
Fixpoint map_assign (k : K) (v : V) (m : list (K * V)) : list (K * V) :=
  match m with
  | [] => [(k, v)]
  | (k', v') :: rest =>
    if ltb k k' then (k, v) :: m
    else if ltb k' k then (k', v') :: map_assign k v rest
    else (k', v) :: rest
  end.

(** Reading [m[k]]: a missing entry is created with the default value. *)
Definition map_index (dflt : V) (k : K) (m : list (K * V)) : V * list (K * V) :=
  match map_find k m with
  | Some v => (v, m)
  | None => (dflt, map_assign k dflt m)
  end.
End OrderedMap.

Definition Qltb (x y : Q) : bool := negb (Qle_bool y x).

(** ** Simulation models

    [SimulationModel] is the abstract interface; a class implementing it
    gives a type of private states and the five virtual functions.  A
    transition changes the private state and may throw; [lambda] and
    [getNextInternalEvent] read it, and [getNextInternalEvent] answers
    [None] for [+infinity]. *)

Record SimulationModel : Type := mkSimulationModel {
  state : Type;
  lambda : state -> string;
  deltaInt : Q -> state -> result state;
  deltaExt : string -> Q -> state -> result state;
  deltaCon : string -> Q -> state -> result state;
  getNextInternalEvent : state -> option Q
}.

(** A live object: its class and its current private state. *)
Record Object : Type := mkObject {
  class_of : SimulationModel;
  state_of : state class_of
}.

(** The virtual calls the simulator makes, in the order it makes them. *)
Inductive Call : Type :=
| CallLambda (m : ptr)
| CallDeltaInt (m : ptr) (timeElapsed : Q)
| CallDeltaExt (m : ptr) (input : string) (timeElapsed : Q)
| CallDeltaCon (m : ptr) (input : string) (timeElapsed : Q)
| CallGetNextInternalEvent (m : ptr).

(** The objects the model pointers refer to, and the record of calls. *)
Record Memory : Type := mkMemory {
  objects : list (ptr * Object);
  calls : list Call
}.

Fixpoint object_at (objs : list (ptr * Object)) (m : ptr) : option Object :=
  match objs with
  | [] => None
  | (a, o) :: rest => if (a =? m)%N then Some o else object_at rest m
  end.

(** The object a virtual call through [m] reaches. *)
Definition deref (objs : list (ptr * Object)) (m : ptr) : result Object :=
  if (m =? nullptr)%N then Fault NullDereference
  else match object_at objs m with
       | Some o => Ok o
       | None => Fault NullDereference
       end.

Fixpoint store (objs : list (ptr * Object)) (m : ptr) (o : Object)
    : list (ptr * Object) :=
  match objs with
  | [] => []
  | (a, o') :: rest =>
    if (a =? m)%N then (a, o) :: rest else (a, o') :: store rest m o
  end.

Definition call_lambda (m : ptr) (mem : Memory) : result (string * Memory) :=
  o <- deref (objects mem) m ;;
  Ok (lambda (class_of o) (state_of o),
      mkMemory (objects mem) (calls mem ++ [CallLambda m])).

Definition call_transition (m : ptr) (c : Call)
    (f : forall cls : SimulationModel, state cls -> result (state cls))
    (mem : Memory) : result Memory :=
  o <- deref (objects mem) m ;;
  st <- f (class_of o) (state_of o) ;;
  Ok (mkMemory (store (objects mem) m (mkObject (class_of o) st))
        (calls mem ++ [c])).

Definition call_deltaInt (m : ptr) (t : Q) : Memory -> result Memory :=
  call_transition m (CallDeltaInt m t) (fun cls => deltaInt cls t).
Definition call_deltaExt (m : ptr) (input : string) (t : Q)
    : Memory -> result Memory :=
  call_transition m (CallDeltaExt m input t) (fun cls => deltaExt cls input t).
Definition call_deltaCon (m : ptr) (input : string) (t : Q)
    : Memory -> result Memory :=
  call_transition m (CallDeltaCon m input t) (fun cls => deltaCon cls input t).

Definition call_getNextInternalEvent (m : ptr) (mem : Memory)
    : result (option Q * Memory) :=
  o <- deref (objects mem) m ;;
  Ok (getNextInternalEvent (class_of o) (state_of o),
      mkMemory (objects mem) (calls mem ++ [CallGetNextInternalEvent m])).

(** ** The simulator *)

Record Simulator : Type := mkSimulator {
  queue : deque;
  inputs : list (Q * string);
  models : list (ptr * string);
  couplings : list (ptr * ptr)
}.

(** The output stream [sb]: one record per line written. *)
Definition Trace : Type := list (Q * string).

Module Sim.

Definition new : Simulator := mkSimulator [] [] [] [].

Definition set_queue (q : deque) (s : Simulator) : Simulator :=
  mkSimulator q (inputs s) (models s) (couplings s).
Definition set_models (ms : list (ptr * string)) (s : Simulator) : Simulator :=
  mkSimulator (queue s) (inputs s) ms (couplings s).
Definition set_couplings (cs : list (ptr * ptr)) (s : Simulator) : Simulator :=
  mkSimulator (queue s) (inputs s) (models s) cs.

Definition addInput (input : string) (r : Q) (s : Simulator) : Simulator :=
  mkSimulator (queue s) (map_assign Qltb r input (inputs s)) (models s)
    (couplings s).

Definition addModel (m : ptr) (s : Simulator) : Simulator :=
  set_models (map_assign N.ltb m EmptyString (models s)) s.

Definition addCoupling (m1 m2 : ptr) (s : Simulator) : Simulator :=
  set_couplings (map_assign N.ltb m1 m2 (couplings s)) s.

Definition routeInputTo (m : ptr) (s : Simulator) : Simulator :=
  set_couplings (map_assign N.ltb nullptr m (couplings s)) s.

Definition takeOutputFrom (m : ptr) (s : Simulator) : Simulator :=
  set_couplings (map_assign N.ltb m nullptr (couplings s)) s.

Definition clearOutputs (s : Simulator) : Simulator :=
  set_models (List.map (fun model => (fst model, EmptyString)) (models s)) s.

(** The loop of [scheduleEvents] over the entries of [inputs]. *)
Fixpoint scheduleEvents_for (ins : list (Q * string)) (inputModel : ptr)
    (q : deque) : result deque :=
  match ins with
  | [] => Ok q
  | input :: rest =>
    q <- scheduleExternalEvent (snd input) (fst input) inputModel q ;;
    scheduleEvents_for rest inputModel q
  end.

Definition scheduleEvents (s : Simulator) : result Simulator :=
  let '(inputModel, cs) := map_index N.ltb nullptr nullptr (couplings s) in
  q <- scheduleEvents_for (inputs s) inputModel (queue s) ;;
  Ok (mkSimulator q (inputs s) (models s) cs).

(** First loop of a step: the outputs of the imminent events that are
    not external. *)
Fixpoint collectOutputs (events : deque) (ms : list (ptr * string))
    (mem : Memory) : result (list (ptr * string) * Memory) :=
  match events with
  | [] => Ok (ms, mem)
  | event :: rest =>
    if negb (getType event =? "external")%string then
      let model := getModel event in
      '(output, mem) <- call_lambda model mem ;;
      collectOutputs rest (map_assign N.ltb model output ms) mem
    else collectOutputs rest ms mem
  end.

(** Second loop of a step: over the entries of [models], in key order. *)
Fixpoint routeOutputs (r : Q) (ms : list (ptr * string))
    (cs : list (ptr * ptr)) (q : deque) (sb : Trace)
    : result (list (ptr * ptr) * deque * Trace) :=
  match ms with
  | [] => Ok (cs, q, sb)
  | model :: rest =>
    let output := snd model in
    if negb (output =? EmptyString)%string then
      let '(dest, cs) := map_index N.ltb nullptr (fst model) cs in
      if (dest =? nullptr)%N then
        routeOutputs r rest cs q (sb ++ [(r, output)])
      else
        let '(destinationModel, cs) := map_index N.ltb nullptr (fst model) cs in
        q <- scheduleExternalEvent output r destinationModel q ;;
        routeOutputs r rest cs q sb
    else routeOutputs r rest cs q sb
  end.

(** The transition one imminent event selects. *)
Definition transition (event : Event) (mem : Memory) : result Memory :=
  let t := getR (getTime event) in
  if (getType event =? "internal")%string then
    call_deltaInt (getModel event) t mem
  else if (getType event =? "external")%string then
    call_deltaExt (getModel event) (getInput event) t mem
  else if (getType event =? "confluent")%string then
    call_deltaCon (getModel event) (getInput event) t mem
  else Ok mem.

(** Third loop of a step. *)
Fixpoint applyTransitions (events : deque) (q : deque) (mem : Memory)
    : result (deque * Memory) :=
  match events with
  | [] => Ok (q, mem)
  | event :: rest =>
    mem <- transition event mem ;;
    '(nextInternalEvent, mem) <- call_getNextInternalEvent (getModel event) mem ;;
    q <- match nextInternalEvent with
         | Some t => scheduleInternalEvent t (getModel event) q
         | None => Ok q
         end ;;
    applyTransitions rest q mem
  end.

(** One turn of the [while] loop of [simulate]. *)
Definition step (s : Simulator) (mem : Memory) (sb : Trace)
    : result (Simulator * Memory * Trace) :=
  r <- timeAdvance (queue s) ;;
  '(events, q) <- getNextEvents (queue s) ;;
  let s := clearOutputs (set_queue q s) in
  '(ms, mem) <- collectOutputs events (models s) mem ;;
  '(cs, q, sb) <- routeOutputs r ms (couplings s) (queue s) sb ;;
  '(q, mem) <- applyTransitions events q mem ;;
  Ok (mkSimulator q (inputs s) ms cs, mem, sb).

Fixpoint simulate_while (fuel : nat) (s : Simulator) (mem : Memory) (sb : Trace)
    : result (Simulator * Memory * Trace) :=
  if isEmpty (queue s) then Ok (s, mem, sb)
  else
    match fuel with
    | O => Fault OutOfFuel
    | S fuel =>
      '(s, mem, sb) <- step s mem sb ;;
      simulate_while fuel s mem sb
    end.

(** [simulate]: the trace written, with the simulator and the memory
    the run leaves behind.  [fuel] bounds the number of steps. *)
Definition simulate (fuel : nat) (s : Simulator) (mem : Memory)
    : result (Simulator * Memory * Trace) :=
  s <- scheduleEvents s ;;
  simulate_while fuel s mem [].

End Sim.

(** ** The example models *)

Definition isspace (c : ascii) : bool :=
  let n := nat_of_ascii c in (n =? 32) || ((9 <=? n) && (n <=? 13)).

Definition digit_of (c : ascii) : option Z :=
  let n := nat_of_ascii c in
  if (48 <=? n) && (n <=? 57) then Some (Z.of_nat (n - 48)) else None.

Fixpoint skip_spaces (s : string) : string :=
  match s with
  | String c rest => if isspace c then skip_spaces rest else s
  | EmptyString => s
  end.

(** The digits at the front of [s], folded into [acc]; [seen] tells
    whether a digit has been read. *)
Fixpoint read_digits (s : string) (acc : Z) (seen : bool) : option Z :=
  match s with
  | String c rest =>
    match digit_of c with
    | Some d => read_digits rest (10 * acc + d)%Z true
    | None => if seen then Some acc else None
    end
  | EmptyString => if seen then Some acc else None
  end.

Definition INT_MIN : Z := (- 2147483648)%Z.
Definition INT_MAX : Z := 2147483647%Z.

(** [std::stoi] in base 10. *)
Definition stoi (s : string) : result Z :=
  let s := skip_spaces s in
  let '(sign, s) :=
    match s with
    | String "-"%char rest => ((-1)%Z, rest)
    | String "+"%char rest => (1%Z, rest)
    | _ => (1%Z, s)
    end in
  match read_digits s 0%Z false with
  | None => Fault InvalidArgument
  | Some n =>
    let v := (sign * n)%Z in
    if ((INT_MIN <=? v) && (v <=? INT_MAX))%Z then Ok v else Fault OutOfRange
  end.

Record Machine : Type := mkMachine {
  parts : Z;
  nextInternalEvent : option Q;
  timeToProcess : Z
}.

Module MachineImpl.

Definition new (timeToProcess : Z) : Machine := mkMachine 0 None timeToProcess.

Definition lambda (_ : Machine) : string := "1".

Definition deltaInt (timeElapsed : Q) (this : Machine) : result Machine :=
  let parts := (parts this - 1)%Z in
  if (parts >? 0)%Z
  then Ok (mkMachine parts
             (Some (timeElapsed + inject_Z (timeToProcess this))%Q)
             (timeToProcess this))
  else Ok (mkMachine parts None (timeToProcess this)).

(** The part shared by [deltaExt] and [deltaCon] once [parts] is updated. *)
Definition reschedule (originalParts parts : Z) (timeElapsed : Q)
    (this : Machine) : Machine :=
  if (parts =? 0)%Z then mkMachine parts None (timeToProcess this)
  else if ((originalParts =? 0) && (parts >? 0))%Z
  then mkMachine parts
         (Some (timeElapsed + inject_Z (timeToProcess this))%Q)
         (timeToProcess this)
  else mkMachine parts (nextInternalEvent this) (timeToProcess this).

Definition deltaExt (input : string) (timeElapsed : Q) (this : Machine)
    : result Machine :=
  let originalParts := parts this in
  n <- stoi input ;;
  Ok (reschedule originalParts (parts this + n)%Z timeElapsed this).

Definition deltaCon (input : string) (timeElapsed : Q) (this : Machine)
    : result Machine :=
  let originalParts := parts this in
  n <- stoi input ;;
  Ok (reschedule originalParts (parts this + (n - 1))%Z timeElapsed this).

Definition getNextInternalEvent (this : Machine) : option Q :=
  nextInternalEvent this.

End MachineImpl.

Definition MachineClass : SimulationModel :=
  mkSimulationModel Machine MachineImpl.lambda MachineImpl.deltaInt
    MachineImpl.deltaExt MachineImpl.deltaCon MachineImpl.getNextInternalEvent.

(** [Drill] overrides [lambda]. *)
Definition DrillClass : SimulationModel :=
  mkSimulationModel Machine (fun _ => "1 part completed") MachineImpl.deltaInt
    MachineImpl.deltaExt MachineImpl.deltaCon MachineImpl.getNextInternalEvent.

Definition Press : Object := mkObject MachineClass (MachineImpl.new 1).
Definition Drill : Object := mkObject DrillClass (MachineImpl.new 2).

(** The configuration and inputs of [main], with the press at address
    [p] and the drill at address [d].  The run only compares the input
    time 2.7 with other times, so the rational 27/10 stands for the
    double next to it. *)
Definition main_simulator (p d : ptr) : Simulator :=
  Sim.addInput "2" (27 # 10)
    (Sim.addInput "12" (3 # 2)
      (Sim.takeOutputFrom d
        (Sim.routeInputTo p
          (Sim.addCoupling p d
            (Sim.addModel d (Sim.addModel p Sim.new)))))).

Definition main_memory (p d : ptr) : Memory :=
  mkMemory [(p, Press); (d, Drill)] [].

Definition trace_of (res : result (Simulator * Memory * Trace)) : result Trace :=
  '(_, _, sb) <- res ;; Ok sb.

Definition calls_of (res : result (Simulator * Memory * Trace))
    : result (list Call) :=
  '(_, mem, _) <- res ;; Ok (calls mem).

(** A chain of three machines: a press at [a] feeds a press at [b],
    which feeds a drill at [c], the exit point; parts arrive at the
    times 1, 4 and 5. *)
Definition chain_simulator (a b c : ptr) : Simulator :=
  Sim.addInput "1" 5
    (Sim.addInput "1" 4
      (Sim.addInput "2" 1
        (Sim.takeOutputFrom c
          (Sim.routeInputTo a
            (Sim.addCoupling b c
              (Sim.addCoupling a b
                (Sim.addModel c (Sim.addModel b (Sim.addModel a Sim.new))))))))).

Definition chain_memory (a b c : ptr) : Memory :=
  mkMemory [(a, Press); (b, Press); (c, Drill)] [].

(** One press that receives the input but was never made the exit point. *)
Definition no_exit_simulator : Simulator :=
  Sim.addInput "1" (3 # 2) (Sim.routeInputTo 1%N (Sim.addModel 1%N Sim.new)).

(** A press coupled to a drill that was never registered; no exit point. *)
Definition unregistered_simulator : Simulator :=
  Sim.addInput "1" (3 # 2)
    (Sim.addCoupling 1%N 2%N (Sim.routeInputTo 1%N (Sim.addModel 1%N Sim.new))).

(** ** Sequences of scheduling calls *)

Inductive ScheduleCall : Type :=
| CallScheduleInternal (r : Q) (model : ptr)
| CallScheduleExternal (input : string) (r : Q) (model : ptr).

Definition schedule (c : ScheduleCall) (q : deque) : result deque :=
  match c with
  | CallScheduleInternal r model => scheduleInternalEvent r model q
  | CallScheduleExternal input r model => scheduleExternalEvent input r model q
  end.

Fixpoint schedule_all (cs : list ScheduleCall) (q : deque) : result deque :=
  match cs with
  | [] => Ok q
  | c :: rest => q <- schedule c q ;; schedule_all rest q
  end.

(** ** The ordering invariant of the queue, as the specification words it *)

Definition eventR (e : Event) : Q := getR (getTime e).
Definition eventC (e : Event) : Z := getC (getTime e).

(** Every later entry satisfies [ok] with respect to every earlier one. *)
Fixpoint pairwise (ok : Event -> Event -> bool) (q : deque) : bool :=
  match q with
  | [] => true
  | e :: rest => forallb (ok e) rest && pairwise ok rest
  end.

Definition sorted_by_r : deque -> bool :=
  pairwise (fun e e' => Qle_bool (eventR e) (eventR e')).

Definition increasing_c : deque -> bool :=
  pairwise (fun e e' =>
    if Qeq_bool (eventR e) (eventR e') then (eventC e <? eventC e')%Z else true).

Definition one_per_model_r : deque -> bool :=
  pairwise (fun e e' =>
    negb ((getModel e =? getModel e')%N && Qeq_bool (eventR e) (eventR e'))).

Definition queue_invariant (q : deque) : bool :=
  sorted_by_r q && increasing_c q && one_per_model_r q.

(** The entries of [q] at real time [r] that stand before position [pos]. *)
Definition same_r_before (r : Q) (pos : nat) (q : deque) : deque :=
  filter (fun e => Qeq_bool (eventR e) r) (firstn pos q).

(** The counter the specification assigns to an event placed at [pos]. *)
Definition expected_counter (r : Q) (pos : nat) (q : deque) : Z :=
  match rev (same_r_before r pos q) with
  | [] => 0%Z
  | e :: _ => (eventC e + 1)%Z
  end.

(** [q] with the entry at [k] replaced, every other entry unchanged. *)
Definition replaced_at (k : nat) (e : Event) (q : deque) : deque :=
  firstn k q ++ e :: skipn (S k) q.

(** The leading entries at real time [r], and what follows them. *)
Fixpoint leading_run (r : Q) (q : deque) : deque :=
  match q with
  | [] => []
  | e :: rest => if Qeq_bool (eventR e) r then e :: leading_run r rest else []
  end.

Fixpoint after_run (r : Q) (q : deque) : deque :=
  match q with
  | [] => []
  | e :: rest => if Qeq_bool (eventR e) r then after_run r rest else q
  end.

(** ** The input schedule, as a sequence of [addInput] calls *)

Definition addInputs (adds : list (string * Q)) (s : Simulator) : Simulator :=
  fold_left (fun s a => Sim.addInput (fst a) (snd a) s) adds s.

(** The payload of the last call in [adds] whose time equals [r]. *)
Fixpoint last_added (r : Q) (adds : list (string * Q)) : option string :=
  match adds with
  | [] => None
  | (input, r') :: rest =>
    match last_added r rest with
    | Some later => Some later
    | None => if Qeq_bool r' r then Some input else None
    end
  end.

Definition key_lt (a b : Q * string) : Prop := (fst a < fst b)%Q.

(** The event [scheduleEvents] makes of one entry of the input schedule. *)
Definition seed_event (inputModel : ptr) (input : Q * string) : Event :=
  ExternalEvent (snd input) (mkTime (fst input) 0) inputModel.

(** The destination the simulator reads for [m]: a missing entry reads
    as [nullptr], which is also the mark of the exit point. *)
Definition destination (cs : list (ptr * ptr)) (m : ptr) : ptr :=
  match map_find N.ltb m cs with
  | Some d => d
  | None => nullptr
  end.

(** ** Routing, as the second loop of a step performs it *)

Definition has_output (model : ptr * string) : bool :=
  negb (snd model =? EmptyString)%string.

(** The models whose output is written to the trace: those that read
    [nullptr] as their destination. *)
Definition exit_models (cs : list (ptr * ptr)) (ms : list (ptr * string))
    : list (ptr * string) :=
  filter (fun model =>
    has_output model && (destination cs (fst model) =? nullptr)%N) ms.

(** The models whose output is scheduled for another model. *)
Definition coupled_models (cs : list (ptr * ptr)) (ms : list (ptr * string))
    : list (ptr * string) :=
  filter (fun model =>
    has_output model && negb (destination cs (fst model) =? nullptr)%N) ms.

Definition trace_record (r : Q) (model : ptr * string) : Q * string :=
  (r, snd model).

(** The models whose entry of the coupling table the routing loop reads
    with [couplings[model.first]]: those with a non-empty output. *)
Definition reads_coupling (ms : list (ptr * string)) (k : ptr) : bool :=
  existsb (fun model => has_output model && (fst model =? k)%N) ms.

Definition routing_call (r : Q) (cs : list (ptr * ptr)) (model : ptr * string)
    : ScheduleCall :=
  CallScheduleExternal (snd model) r (destination cs (fst model)).

(** ** The virtual calls of one step, as the specification orders them *)

(** The calls of the first loop of a step: one [lambda] per imminent
    event that is not external, in queue order. *)
Definition output_calls (events : deque) : list Call :=
  List.map (fun e => CallLambda (getModel e))
    (filter (fun e => negb (getType e =? "external")%string) events).

(** The transition call an imminent event selects. *)
Definition delta_call (e : Event) : list Call :=
  let t := getR (getTime e) in
  if (getType e =? "internal")%string then [CallDeltaInt (getModel e) t]
  else if (getType e =? "external")%string
  then [CallDeltaExt (getModel e) (getInput e) t]
  else if (getType e =? "confluent")%string
  then [CallDeltaCon (getModel e) (getInput e) t]
  else [].

(** The calls of the third loop of a step. *)
Definition transition_calls (events : deque) : list Call :=
  flat_map (fun e => delta_call e ++ [CallGetNextInternalEvent (getModel e)])
    events.

Definition is_lambda_call (c : Call) : bool :=
  match c with CallLambda _ => true | _ => false end.

(** The value [nextR] takes after a pop: the sentinel [-1.0] when the
    queue is empty. *)
Definition next_r (q : deque) : Q :=
  match q with
  | [] => (-1)%Q
  | e :: _ => getR (getTime e)
  end.

(** ** Insertion by real time, as a reference for the scheduling loops *)

(** [new] placed before the first entry whose real time is greater. *)
Fixpoint insert_by_r (new : Event) (q : deque) : deque :=
  match q with
  | [] => [new]
  | e :: rest =>
    if Qgtb (eventR e) (eventR new) then new :: q
    else e :: insert_by_r new rest
  end.

(** The event a scheduling call makes when it merges with nothing. *)
Definition call_event (c : ScheduleCall) : Event :=
  match c with
  | CallScheduleInternal r model => InternalEvent EmptyString (mkTime r 0) model
  | CallScheduleExternal input r model => ExternalEvent input (mkTime r 0) model
  end.

Definition call_r (c : ScheduleCall) : Q :=
  match c with
  | CallScheduleInternal r _ => r
  | CallScheduleExternal _ r _ => r
  end.

(** No entry of [q] is at real time [r]. *)
Definition fresh_time (r : Q) (q : deque) : Prop :=
  Forall (fun e => ~ (eventR e == r)%Q) q.

(** The last entry of the run [e :: run]. *)
Fixpoint last_of (e : Event) (run : deque) : Event :=
  match run with
  | [] => e
  | e' :: rest => last_of e' rest
  end.

(** [Event::compareTo]. *)
Definition Event_compareTo (this other : Event)
    (this_signbit other_signbit : bool) : Z :=
  Time_compareTo (getTime this) (getTime other) this_signbit other_signbit.

(** A counter for which the subtraction of [Time::compareTo] stays in
    the range of [int]: the counters of the queue start at 0. *)
Definition counter_in_range (t : Time) : Prop :=
  (0 <= getC t <= INT_MAX)%Z.

(** Two times of which one is not a zero, or whose zeros have the same
    sign: neither of them is [-0.0] while the other is [+0.0]. *)
Definition zeros_agree (a b : Time) (a_signbit b_signbit : bool) : Prop :=
  (getR a == 0)%Q -> (getR b == 0)%Q -> a_signbit = b_signbit.

(** A queue with two entries at real time 1 and later ones at 3 and 4. *)
Definition example_queue : deque :=
  [ExternalEvent "a" (mkTime 1 0) 1%N;
   ExternalEvent "b" (mkTime 1 1) 2%N;
   InternalEvent EmptyString (mkTime 3 0) 1%N;
   InternalEvent EmptyString (mkTime 4 0) 2%N].

(** ** Configuration, as a sequence of calls *)

Inductive ConfigCall : Type :=
| CallAddModel (m : ptr)
| CallAddCoupling (m1 m2 : ptr)
| CallRouteInputTo (m : ptr)
| CallTakeOutputFrom (m : ptr)
| CallAddInput (input : string) (r : Q).

Definition configure_one (c : ConfigCall) (s : Simulator) : Simulator :=
  match c with
  | CallAddModel m => Sim.addModel m s
  | CallAddCoupling m1 m2 => Sim.addCoupling m1 m2 s
  | CallRouteInputTo m => Sim.routeInputTo m s
  | CallTakeOutputFrom m => Sim.takeOutputFrom m s
  | CallAddInput input r => Sim.addInput input r s
  end.

Definition configure (cs : list ConfigCall) (s : Simulator) : Simulator :=
  fold_left (fun s c => configure_one c s) cs s.

(** The keys of a map are in strictly ascending address order. *)
Definition ascending_keys {V : Type} (m : list (ptr * V)) : Prop :=
  StronglySorted N.lt (List.map fst m).

(** The input schedule holds one input, at the real time -1. *)
Definition only_sentinel_input (ins : list (Q * string)) : bool :=
  match ins with
  | [(r, _)] => Qeq_bool (-1) r
  | _ => false
  end.

(** A machine holds no negative number of parts and has an internal
    event pending exactly when it holds a part. *)
Definition Machine_consistent (this : Machine) : Prop :=
  (0 <= parts this)%Z
  /\ (nextInternalEvent this = None <-> parts this = 0%Z).

(** Two events take the same slot of the order: same real time, same
    counter, same model. *)
Definition same_slot (e e' : Event) : Prop :=
  (eventR e == eventR e')%Q /\ eventC e = eventC e'
  /\ getModel e = getModel e'.

(** The output [lambda] gives for the object at [m], if there is one. *)
Definition output_of (objs : list (ptr * Object)) (m : ptr) : option string :=
  match deref objs m with
  | Ok o => Some (lambda (class_of o) (state_of o))
  | Fault _ => None
  end.

(** [m] has an imminent event that is not external. *)
Definition fires (events : deque) (m : ptr) : bool :=
  existsb (fun e => (getModel e =? m)%N
                    && negb (getType e =? "external")%string) events.

(** * Properties *)

(** ** Container accesses *)

Lemma deque_at_Some (q : deque) (i : nat) :
  i < length q -> exists e, nth_error q i = Some e /\ deque_at q i = Ok e.
Proof.
  intros Hi. unfold deque_at.
  destruct (nth_error q i) as [e|] eqn:E.
  - exists e. split; reflexivity.
  - apply nth_error_None in E. lia.
Qed.

Lemma deque_at_Ok (q : deque) (i : nat) (e : Event) :
  deque_at q i = Ok e -> nth_error q i = Some e /\ i < length q.
Proof.
  unfold deque_at. destruct (nth_error q i) as [e'|] eqn:E; intros H.
  - inversion H; subst. split; [reflexivity|].
    apply nth_error_Some. congruence.
  - discriminate.
Qed.

Lemma deque_set_Ok (i : nat) (e : Event) (q : deque) :
  i < length q -> deque_set i e q = Ok (replaced_at i e q).
Proof.
  intros Hi. unfold deque_set. apply Nat.ltb_lt in Hi. rewrite Hi. reflexivity.
Qed.

Lemma deque_insert_Ok (pos : nat) (e : Event) (q : deque) :
  pos <= length q ->
  deque_insert pos e q = Ok (firstn pos q ++ e :: skipn pos q).
Proof.
  intros Hp. unfold deque_insert. apply Nat.leb_le in Hp. rewrite Hp. reflexivity.
Qed.

(** ** [scheduleInternalEvent] always returns

    Its loops stay inside the queue and within their unrolling bound. *)

Lemma scheduleInternalEvent_while_returns (fuel : nat) :
  forall r model i element e q,
    (element = 0 -> Qeq_bool (getR (getTime e)) r = true) ->
    i < length q -> 1 <= fuel -> length q <= fuel + element ->
    exists q', scheduleInternalEvent_while fuel r model i element e q = Ok q'.
Proof.
  induction fuel as [|fuel IH]; intros r model i element e q Hfirst Hi Hfuel Hsum.
  - lia.
  - cbn [scheduleInternalEvent_while].
    destruct (element <? length q - 1) eqn:Hel; [|eauto].
    apply Nat.ltb_lt in Hel.
    destruct (Qeq_bool (getR (getTime e)) r) eqn:Hr.
    + destruct (getModel e =? model)%N.
      * destruct (getType e =? "external")%string; [|eauto].
        unfold scheduleConfluentEvent. rewrite deque_set_Ok by assumption. eauto.
      * destruct (deque_at_Some q (S element)) as (e' & _ & ->); [lia|].
        cbn [bind]. apply IH; lia.
    + destruct element as [|p]; [specialize (Hfirst eq_refl); congruence|].
      cbn [deque_before].
      destruct (deque_at_Some q p) as (e' & _ & ->); [lia|].
      cbn [bind]. rewrite deque_insert_Ok by lia. eauto.
Qed.

Lemma scheduleInternalEvent_for_returns (fuel : nat) :
  forall r model i q,
    i <= length q -> length q < fuel + i ->
    exists q', scheduleInternalEvent_for fuel r model i q = Ok q'.
Proof.
  induction fuel as [|fuel IH]; intros r model i q Hi Hfuel; [lia|].
  cbn [scheduleInternalEvent_for].
  destruct (i <? length q) eqn:Hlt; [|eauto].
  apply Nat.ltb_lt in Hlt.
  destruct (deque_at_Some q i Hlt) as (e & _ & ->). cbn [bind].
  destruct (Qeq_bool (getR (getTime e)) r) eqn:Hr.
  - destruct (getModel e =? model)%N.
    + destruct (getType e =? "external")%string; [|eauto].
      unfold scheduleConfluentEvent. rewrite deque_set_Ok by assumption. eauto.
    + destruct (i =? length q - 1).
      * apply scheduleInternalEvent_while_returns; auto;
          unfold push_back; rewrite ?length_app; cbn [length]; lia.
      * apply scheduleInternalEvent_while_returns; auto; lia.
  - destruct (Qgtb (getR (getTime e)) r).
    + rewrite deque_insert_Ok by lia. eauto.
    + apply IH; lia.
Qed.

Lemma scheduleInternalEvent_returns (r : Q) (model : ptr) (q : deque) :
  exists q', scheduleInternalEvent r model q = Ok q'.
Proof.
  unfold scheduleInternalEvent. apply scheduleInternalEvent_for_returns; lia.
Qed.

(** ** [scheduleExternalEvent] and [getNextEvents] return or leave the queue

    Their unrolling bounds are never the reason of a fault. *)

Lemma scheduleExternalEvent_while_fuel (fuel : nat) :
  forall input r model i element e q,
    element < length q -> length q < fuel + element ->
    scheduleExternalEvent_while fuel input r model i element e q
      <> Fault OutOfFuel.
Proof.
  induction fuel as [|fuel IH]; intros input r model i element e q Hel Hfuel;
    [lia|].
  cbn [scheduleExternalEvent_while].
  destruct (getType e =? "internal")%string.
  - destruct (getModel e =? model)%N.
    + unfold deque_set. destruct (i <? length q); discriminate.
    + destruct (deque_at q (S element)) as [e'|f] eqn:E; cbn [bind].
      * apply deque_at_Ok in E. apply IH; lia.
      * unfold deque_at in E. destruct (nth_error q (S element)); congruence.
  - destruct (deque_at q (S element)) as [e'|f] eqn:E; cbn [bind].
    + apply deque_at_Ok in E.
      destruct (Qeq_bool (getR (getTime e')) r).
      * apply IH; lia.
      * unfold deque_insert. destruct (S element <=? length q); discriminate.
    + unfold deque_at in E. destruct (nth_error q (S element)); congruence.
Qed.

Lemma scheduleExternalEvent_for_fuel (fuel : nat) :
  forall input r model i q,
    i <= length q -> length q < fuel + i ->
    scheduleExternalEvent_for fuel input r model i q <> Fault OutOfFuel.
Proof.
  induction fuel as [|fuel IH]; intros input r model i q Hi Hfuel; [lia|].
  cbn [scheduleExternalEvent_for].
  destruct (i <? length q) eqn:Hlt; [|discriminate].
  apply Nat.ltb_lt in Hlt.
  destruct (deque_at_Some q i Hlt) as (e & _ & ->). cbn [bind].
  destruct (Qeq_bool (getR (getTime e)) r).
  - apply scheduleExternalEvent_while_fuel; lia.
  - destruct (Qgtb (getR (getTime e)) r).
    + unfold deque_insert. destruct (i <=? length q); discriminate.
    + apply IH; lia.
Qed.

Lemma scheduleExternalEvent_fuel (input : string) (r : Q) (model : ptr)
    (q : deque) :
  scheduleExternalEvent input r model q <> Fault OutOfFuel.
Proof.
  unfold scheduleExternalEvent. apply scheduleExternalEvent_for_fuel; lia.
Qed.

Lemma getNextEvents_while_run (fuel : nat) :
  forall r events q,
    S (length q) <= fuel ->
    getNextEvents_while fuel r (next_r q) events q =
      if isEmpty (after_run r q) && Qeq_bool (-1) r
      then Fault OutOfBounds
      else Ok (events ++ leading_run r q, after_run r q).
Proof.
  induction fuel as [|fuel IH]; intros r events q Hfuel; [lia|].
  cbn [getNextEvents_while].
  destruct q as [|e rest].
  - cbn [next_r after_run leading_run isEmpty andb].
    destruct (Qeq_bool (-1) r); [reflexivity|].
    rewrite app_nil_r. reflexivity.
  - cbn [next_r after_run leading_run]. unfold eventR.
    destruct (Qeq_bool (getR (getTime e)) r) eqn:Hr.
    + cbn [deque_at nth_error pop_front bind].
      change (match rest with
              | [] => (-1)%Q
              | e0 :: _ => getR (getTime e0)
              end) with (next_r rest).
      rewrite IH by (cbn [length] in Hfuel; lia).
      unfold push_back. rewrite <- app_assoc. reflexivity.
    + cbn [isEmpty andb]. rewrite app_nil_r. reflexivity.
Qed.

(** What [getNextEvents] does on every queue: it takes the leading
    entries at the real time of the first one, and reads past the end
    when they are the whole queue and that time is [-1.0]. *)
Lemma getNextEvents_run (q : deque) :
  getNextEvents q =
    match q with
    | [] => Ok ([], [])
    | e :: _ =>
      if isEmpty (after_run (eventR e) q) && Qeq_bool (-1) (eventR e)
      then Fault OutOfBounds
      else Ok (leading_run (eventR e) q, after_run (eventR e) q)
    end.
Proof.
  destruct q as [|e rest]; [reflexivity|].
  unfold getNextEvents.
  change (getR (getTime e)) with (next_r (e :: rest)) at 2.
  rewrite getNextEvents_while_run by lia. reflexivity.
Qed.

(** ** The insertion defects of the queue, on concrete queues *)

(** C1.  The specification asks that every sequence of scheduling calls
    from the empty queue leaves a queue sorted by real time, with
    strictly increasing counters among entries of equal real time and one
    entry per (model, time).  The code breaks it: two internal events
    scheduled at real time 1 for the models 1 and 2 both get counter 0,
    and five calls that place an external event behind internal events
    of other models leave the queue unsorted. *)
Theorem schedule_all_breaks_invariant :
  (schedule_all
     [CallScheduleInternal 1 1%N; CallScheduleInternal 1 2%N] [] =
     Ok [InternalEvent EmptyString (mkTime 1 0) 1%N; InternalEvent EmptyString (mkTime 1 0) 2%N]
   /\ increasing_c
        [InternalEvent EmptyString (mkTime 1 0) 1%N; InternalEvent EmptyString (mkTime 1 0) 2%N]
      = false)
  /\ (schedule_all
        [CallScheduleExternal "e" 4 5%N; CallScheduleExternal "d" 3 4%N;
         CallScheduleInternal 2 2%N; CallScheduleInternal 1 1%N;
         CallScheduleExternal "x" 1 3%N] [] =
        Ok [InternalEvent EmptyString (mkTime 1 0) 1%N; InternalEvent EmptyString (mkTime 2 0) 2%N;
            ExternalEvent "d" (mkTime 3 0) 4%N; ExternalEvent "x" (mkTime 1 1) 3%N;
            ExternalEvent "e" (mkTime 4 0) 5%N]
      /\ sorted_by_r
           [InternalEvent EmptyString (mkTime 1 0) 1%N; InternalEvent EmptyString (mkTime 2 0) 2%N;
            ExternalEvent "d" (mkTime 3 0) 4%N; ExternalEvent "x" (mkTime 1 1) 3%N;
            ExternalEvent "e" (mkTime 4 0) 5%N]
         = false).
Proof.
  repeat split; vm_compute; reflexivity.
Qed.

(** C2.  The specification asks that an internal event arriving for a
    model with a pending external event at the same real time replaces
    that entry, and only it, by one confluent event, and symmetrically
    for an external event arriving at a pending internal one.  When the
    pending entry is not the first one at that real time the code writes
    the confluent event over the first entry, which belongs to another
    model, and the pending entry stays. *)
Theorem confluence_overwrites_other_entry :
  let q1 := [ExternalEvent "a" (mkTime 1 0) 1%N;
             ExternalEvent "b" (mkTime 1 1) 2%N;
             ExternalEvent "z" (mkTime 2 0) 3%N] in
  let q2 := [InternalEvent EmptyString (mkTime 1 0) 1%N;
             InternalEvent EmptyString (mkTime 1 1) 2%N;
             ExternalEvent "z" (mkTime 2 0) 3%N;
             ExternalEvent "y" (mkTime 3 0) 4%N] in
  (schedule_all
     [CallScheduleExternal "z" 2 3%N; CallScheduleExternal "a" 1 1%N;
      CallScheduleExternal "b" 1 2%N] [] = Ok q1
   /\ scheduleInternalEvent 1 2%N q1 =
        Ok (replaced_at 0 (ConfluentEvent "b" (mkTime 1 1) 2%N) q1)
   /\ scheduleInternalEvent 1 2%N q1 <>
        Ok (replaced_at 1 (ConfluentEvent "b" (mkTime 1 1) 2%N) q1))
  /\ (schedule_all
        [CallScheduleExternal "z" 2 3%N; CallScheduleExternal "y" 3 4%N;
         CallScheduleInternal 1 1%N; CallScheduleInternal 1 2%N] [] = Ok q2
      /\ scheduleExternalEvent "x" 1 2%N q2 =
           Ok (replaced_at 0 (ConfluentEvent "x" (mkTime 1 1) 2%N) q2)
      /\ scheduleExternalEvent "x" 1 2%N q2 <>
           Ok (replaced_at 1 (ConfluentEvent "x" (mkTime 1 1) 2%N) q2)).
Proof.
  cbv zeta. repeat split; try (vm_compute; reflexivity);
    vm_compute; intros H; discriminate H.
Qed.

(** C3.  The specification asks that an event inserted behind entries of
    the same real time gets the counter of the last of them plus one,
    also at the tail of the queue.  Behind a single entry at the tail
    the code appends the internal event with counter 0. *)
Theorem tail_insertion_counter_zero :
  let q := [InternalEvent EmptyString (mkTime 1 0) 1%N] in
  scheduleInternalEvent 1 2%N q = Ok (q ++ [InternalEvent EmptyString (mkTime 1 0) 2%N])
  /\ expected_counter 1 (length q) q = 1%Z.
Proof.
  split; vm_compute; reflexivity.
Qed.

(** C9.  The specification asks that [scheduleExternalEvent] keeps every
    access inside the queue, also when the entries at the given real
    time reach the last element.  On a queue holding one external event
    at real time 1 the call for another model at real time 1 reads the
    element behind the last one. *)
Theorem scheduleExternalEvent_reads_past_end :
  let q := [ExternalEvent "a" (mkTime 1 0) 1%N] in
  queue_invariant q = true
  /\ schedule_all [CallScheduleExternal "a" 1 1%N] [] = Ok q
  /\ scheduleExternalEvent "b" 1 2%N q = Fault OutOfBounds.
Proof.
  repeat split; vm_compute; reflexivity.
Qed.

(** C5.  The specification asks that [getNextEvents] returns the leading
    events of minimal real time on every queue.  On a queue whose only
    entry has real time -1 the loop does not stop when the queue is
    empty, because -1 is also its mark for the empty queue, and reads
    the first element of the empty queue. *)
Theorem getNextEvents_sentinel_fault :
  let q := [ExternalEvent "1" (mkTime (-1) 0) 1%N] in
  schedule_all [CallScheduleExternal "1" (-1) 1%N] [] = Ok q
  /\ getNextEvents q = Fault OutOfBounds
  /\ leading_run (-1) q = q.
Proof.
  repeat split; vm_compute; reflexivity.
Qed.

(** ** The order of the virtual calls in one step *)

Lemma call_transition_calls (m : ptr) (c : Call) f (mem mem' : Memory) :
  call_transition m c f mem = Ok mem' -> calls mem' = calls mem ++ [c].
Proof.
  unfold call_transition.
  destruct (deref (objects mem) m) as [o|]; cbn [bind]; [|discriminate].
  destruct (f (class_of o) (state_of o)); cbn [bind]; [|discriminate].
  intros H. inversion H. reflexivity.
Qed.

Lemma transition_calls_one (e : Event) (mem mem' : Memory) :
  Sim.transition e mem = Ok mem' -> calls mem' = calls mem ++ delta_call e.
Proof.
  unfold Sim.transition, delta_call, call_deltaInt, call_deltaExt, call_deltaCon.
  destruct (getType e =? "internal")%string;
    [apply call_transition_calls|].
  destruct (getType e =? "external")%string;
    [apply call_transition_calls|].
  destruct (getType e =? "confluent")%string;
    [apply call_transition_calls|].
  intros H. inversion H. rewrite app_nil_r. reflexivity.
Qed.

Lemma collectOutputs_calls (events : deque) :
  forall ms mem ms' mem',
    Sim.collectOutputs events ms mem = Ok (ms', mem') ->
    calls mem' = calls mem ++ output_calls events.
Proof.
  induction events as [|e rest IH]; intros ms mem ms' mem' H;
    cbn [Sim.collectOutputs] in H.
  - inversion H. unfold output_calls. cbn. rewrite app_nil_r. reflexivity.
  - unfold output_calls. cbn [filter].
    destruct (negb (getType e =? "external")%string).
    + unfold call_lambda in H.
      destruct (deref (objects mem) (getModel e)) as [o|]; cbn [bind] in H;
        [|discriminate].
      apply IH in H. cbn [calls] in H. rewrite H.
      cbn [List.map]. rewrite <- app_assoc. reflexivity.
    + apply IH in H. exact H.
Qed.

Lemma applyTransitions_calls (events : deque) :
  forall q mem q' mem',
    Sim.applyTransitions events q mem = Ok (q', mem') ->
    calls mem' = calls mem ++ transition_calls events.
Proof.
  induction events as [|e rest IH]; intros q mem q' mem' H;
    cbn [Sim.applyTransitions] in H.
  - inversion H. cbn. rewrite app_nil_r. reflexivity.
  - destruct (Sim.transition e mem) as [mem1|] eqn:Ht; cbn [bind] in H;
      [|discriminate].
    apply transition_calls_one in Ht.
    unfold call_getNextInternalEvent in H.
    destruct (deref (objects mem1) (getModel e)) as [o|]; cbn [bind] in H;
      [|discriminate].
    destruct (match getNextInternalEvent (class_of o) (state_of o) with
              | Some t => scheduleInternalEvent t (getModel e) q
              | None => Ok q
              end) as [q1|]; cbn [bind] in H; [|discriminate].
    apply IH in H. cbn [calls] in H. rewrite H, Ht.
    cbn [transition_calls flat_map]. rewrite <- !app_assoc. reflexivity.
Qed.

Lemma transition_calls_no_lambda (events : deque) :
  forallb (fun c => negb (is_lambda_call c)) (transition_calls events) = true.
Proof.
  induction events as [|e rest IH]; [reflexivity|].
  cbn [transition_calls flat_map]. rewrite !forallb_app.
  fold (transition_calls rest). rewrite IH.
  unfold delta_call.
  destruct (getType e =? "internal")%string; [reflexivity|].
  destruct (getType e =? "external")%string; [reflexivity|].
  destruct (getType e =? "confluent")%string; reflexivity.
Qed.

(** C7.  In a step that completes, the virtual calls are: first one
    [lambda] for each imminent event that is not external (internal or
    confluent), in queue order, and none for an external one; then, for
    each imminent event in queue order, its transition followed by
    [getNextInternalEvent].  So every [lambda] of the step comes before
    every transition of the step, and the transitions hold no [lambda]. *)
Theorem step_outputs_before_transitions (s s' : Simulator)
    (mem mem' : Memory) (sb sb' : Trace) :
  Sim.step s mem sb = Ok (s', mem', sb') ->
  exists events rest,
    getNextEvents (queue s) = Ok (events, rest)
    /\ calls mem' = calls mem ++ output_calls events ++ transition_calls events
    /\ forallb (fun c => negb (is_lambda_call c)) (transition_calls events)
       = true.
Proof.
  unfold Sim.step. intros H.
  destruct (timeAdvance (queue s)) as [r|]; cbn [bind] in H; [|discriminate].
  destruct (getNextEvents (queue s)) as [[events rest]|]; cbn [bind] in H;
    [|discriminate].
  exists events, rest. split; [reflexivity|].
  destruct (Sim.collectOutputs events
              (models (Sim.clearOutputs (Sim.set_queue rest s))) mem)
    as [[ms mem1]|] eqn:Hc; cbn [bind] in H; [|discriminate].
  destruct (Sim.routeOutputs r ms
              (couplings (Sim.clearOutputs (Sim.set_queue rest s)))
              (queue (Sim.clearOutputs (Sim.set_queue rest s))) sb)
    as [[[cs q1] sb1]|]; cbn [bind] in H; [|discriminate].
  destruct (Sim.applyTransitions events q1 mem1) as [[q2 mem2]|] eqn:Ha;
    cbn [bind] in H; [|discriminate].
  inversion H; subst.
  apply collectOutputs_calls in Hc. apply applyTransitions_calls in Ha.
  split.
  - rewrite Ha, Hc, app_assoc. reflexivity.
  - apply transition_calls_no_lambda.
Qed.

(** ** Comparisons of real times *)

Lemma Qltb_spec (x y : Q) : BoolSpec (x < y)%Q (y <= x)%Q (Qltb x y).
Proof.
  unfold Qltb. destruct (Qle_bool y x) eqn:E; cbn [negb]; constructor.
  - apply Qle_bool_iff. exact E.
  - apply Qnot_le_lt. intros H. apply Qle_bool_iff in H. congruence.
Qed.

Lemma Qgtb_spec (x y : Q) : BoolSpec (y < x)%Q (x <= y)%Q (Qgtb x y).
Proof.
  unfold Qgtb. destruct (Qle_bool x y) eqn:E; cbn [negb]; constructor.
  - apply Qle_bool_iff. exact E.
  - apply Qnot_le_lt. intros H. apply Qle_bool_iff in H. congruence.
Qed.

Lemma Qeqb_spec (x y : Q) : BoolSpec (x == y)%Q (~ (x == y)%Q) (Qeq_bool x y).
Proof.
  destruct (Qeq_bool x y) eqn:E; constructor.
  - apply Qeq_bool_iff. exact E.
  - intros H. apply Qeq_bool_iff in H. congruence.
Qed.

(** Decide every comparison of real times in the goal, then close the
    cases arithmetic contradicts. *)
Ltac qcases :=
  repeat match goal with
  | |- context [Qltb ?x ?y] => destruct (Qltb_spec x y)
  | |- context [Qgtb ?x ?y] => destruct (Qgtb_spec x y)
  | |- context [Qeq_bool ?x ?y] => destruct (Qeqb_spec x y)
  end;
  try reflexivity; try (exfalso; lra).

(** ** The input schedule *)

Lemma map_find_assign_Q (r r' : Q) (v : string) (m : list (Q * string)) :
  map_find Qltb r (map_assign Qltb r' v m) =
    if Qeq_bool r' r then Some v else map_find Qltb r m.
Proof.
  induction m as [|[k w] rest IH]; cbn [map_assign map_find].
  - qcases.
  - destruct (Qltb_spec r' k); [|destruct (Qltb_spec k r')];
      cbn [map_find].
    + qcases.
    + rewrite IH. qcases.
    + qcases.
Qed.

Lemma map_assign_Q_above (k r : Q) (v : string) (m : list (Q * string)) :
  (k < r)%Q -> Forall (fun x => (k < fst x)%Q) m ->
  Forall (fun x => (k < fst x)%Q) (map_assign Qltb r v m).
Proof.
  intros Hk Hm. induction Hm as [|[k' w] rest Hk' Hrest IH];
    cbn [map_assign].
  - constructor; [exact Hk|constructor].
  - cbn [fst] in Hk'.
    destruct (Qltb_spec r k'); [|destruct (Qltb_spec k' r)];
      repeat constructor; auto.
Qed.

Lemma map_assign_Q_sorted (r : Q) (v : string) (m : list (Q * string)) :
  StronglySorted key_lt m -> StronglySorted key_lt (map_assign Qltb r v m).
Proof.
  intros Hm. induction Hm as [|[k w] rest Hrest IH Hk]; cbn [map_assign].
  - repeat constructor.
  - unfold key_lt in Hk. cbn [fst] in Hk.
    destruct (Qltb_spec r k); [|destruct (Qltb_spec k r)].
    + constructor; [constructor; assumption|].
      constructor; [exact H|].
      eapply Forall_impl; [|exact Hk]. intros x Hx.
      unfold key_lt. cbn [fst] in *. lra.
    + constructor; [exact IH|].
      apply map_assign_Q_above; assumption.
    + constructor; assumption.
Qed.

Lemma addInputs_sorted (adds : list (string * Q)) :
  forall s,
    StronglySorted key_lt (inputs s) ->
    StronglySorted key_lt (inputs (addInputs adds s)).
Proof.
  induction adds as [|a rest IH]; intros s Hs; [exact Hs|].
  cbn [addInputs fold_left]. apply IH. cbn [Sim.addInput inputs].
  apply map_assign_Q_sorted. exact Hs.
Qed.

Lemma addInputs_find (adds : list (string * Q)) :
  forall s r,
    map_find Qltb r (inputs (addInputs adds s)) =
      match last_added r adds with
      | Some later => Some later
      | None => map_find Qltb r (inputs s)
      end.
Proof.
  induction adds as [|[input r'] rest IH]; intros s r; [reflexivity|].
  cbn [addInputs fold_left last_added fst snd].
  fold (addInputs rest (Sim.addInput input r' s)).
  rewrite IH. destruct (last_added r rest); [reflexivity|].
  cbn [Sim.addInput inputs]. rewrite map_find_assign_Q.
  destruct (Qeq_bool r' r); reflexivity.
Qed.

Lemma addInputs_other_fields (adds : list (string * Q)) :
  forall s,
    queue (addInputs adds s) = queue s
    /\ models (addInputs adds s) = models s
    /\ couplings (addInputs adds s) = couplings s.
Proof.
  induction adds as [|a rest IH]; intros s; [auto|].
  exact (IH (Sim.addInput (fst a) (snd a) s)).
Qed.

(** An external event later than every pending one goes to the back,
    with counter 0. *)
Lemma scheduleExternalEvent_for_later (fuel : nat) :
  forall input r model i q,
    Forall (fun e => (eventR e < r)%Q) q ->
    i <= length q -> length q < fuel + i ->
    scheduleExternalEvent_for fuel input r model i q =
      Ok (push_back (ExternalEvent input (mkTime r 0) model) q).
Proof.
  induction fuel as [|fuel IH]; intros input r model i q Hq Hi Hfuel; [lia|].
  cbn [scheduleExternalEvent_for].
  destruct (i <? length q) eqn:Hlt; [|reflexivity].
  apply Nat.ltb_lt in Hlt.
  destruct (deque_at_Some q i Hlt) as (e & Hnth & ->). cbn [bind].
  apply nth_error_In in Hnth.
  assert (He : (getR (getTime e) < r)%Q).
  { rewrite Forall_forall in Hq. exact (Hq e Hnth). }
  destruct (Qeqb_spec (getR (getTime e)) r); [exfalso; lra|].
  destruct (Qgtb_spec (getR (getTime e)) r); [exfalso; lra|].
  apply IH; [exact Hq|lia|lia].
Qed.

Lemma scheduleExternalEvent_later (input : string) (r : Q) (model : ptr)
    (q : deque) :
  Forall (fun e => (eventR e < r)%Q) q ->
  scheduleExternalEvent input r model q =
    Ok (push_back (ExternalEvent input (mkTime r 0) model) q).
Proof.
  intros Hq. unfold scheduleExternalEvent.
  apply scheduleExternalEvent_for_later; [exact Hq|lia|lia].
Qed.

Lemma scheduleEvents_for_sorted (ins : list (Q * string)) :
  forall inputModel q,
    StronglySorted key_lt ins ->
    Forall (fun e => Forall (fun input => (eventR e < fst input)%Q) ins) q ->
    Sim.scheduleEvents_for ins inputModel q =
      Ok (q ++ List.map (seed_event inputModel) ins).
Proof.
  induction ins as [|input rest IH]; intros inputModel q Hs Hq;
    cbn [Sim.scheduleEvents_for List.map].
  - rewrite app_nil_r. reflexivity.
  - apply StronglySorted_inv in Hs. destruct Hs as [Hrest Hinput].
    rewrite scheduleExternalEvent_later.
    + cbn [bind]. rewrite IH.
      * unfold push_back. rewrite <- app_assoc. reflexivity.
      * exact Hrest.
      * unfold push_back. apply Forall_app. split.
        -- eapply Forall_impl; [|exact Hq]. intros e He.
           apply Forall_inv_tail in He. exact He.
        -- constructor; [|constructor].
           eapply Forall_impl; [|exact Hinput]. intros x Hx. exact Hx.
    + eapply Forall_impl; [|exact Hq]. intros e He.
      apply Forall_inv in He. exact He.
Qed.


Lemma map_index_fst_destination (m : ptr) (cs : list (ptr * ptr)) :
  fst (map_index N.ltb nullptr m cs) = destination cs m.
Proof.
  unfold map_index, destination.
  destruct (map_find N.ltb m cs); reflexivity.
Qed.

(** Run start on a fresh queue: one external event per scheduled input. *)
Lemma scheduleEvents_seeds (adds : list (string * Q))
    (ms : list (ptr * string)) (cs : list (ptr * ptr)) :
  exists s',
    Sim.scheduleEvents (addInputs adds (mkSimulator [] [] ms cs)) = Ok s'
    /\ queue s' =
         List.map (seed_event (destination cs nullptr))
           (inputs (addInputs adds (mkSimulator [] [] ms cs))).
Proof.
  set (s0 := mkSimulator [] [] ms cs).
  destruct (addInputs_other_fields adds s0) as (Hq & _ & Hc).
  assert (Hs : StronglySorted key_lt (inputs (addInputs adds s0))).
  { apply addInputs_sorted. constructor. }
  unfold Sim.scheduleEvents. rewrite Hq, Hc. cbn [queue couplings s0].
  pose proof (map_index_fst_destination nullptr cs) as Hm.
  destruct (map_index N.ltb nullptr nullptr cs) as [inputModel cs'].
  cbn [fst] in Hm. subst inputModel.
  rewrite scheduleEvents_for_sorted by (exact Hs || constructor).
  cbn [bind app]. eexists. split; reflexivity.
Qed.

Lemma addInputs_not_empty (adds : list (string * Q)) (s : Simulator) :
  adds <> [] -> inputs (addInputs adds s) <> [].
Proof.
  destruct adds as [|[input r] rest]; [congruence|]. intros _ Hnil.
  pose proof (addInputs_find ((input, r) :: rest) s r) as Hf.
  rewrite Hnil in Hf. cbn [map_find last_added] in Hf.
  destruct (last_added r rest); [discriminate|].
  rewrite Qeq_bool_refl in Hf. discriminate.
Qed.

(** C10.  After any sequence of [addInput] calls on a simulator whose
    input schedule and queue are empty, the schedule holds for every
    time the payload of the last call made with that time; its entries
    are in strictly ascending time order; and [scheduleEvents] succeeds
    and leaves in the queue exactly one external event per entry, in
    that order, with counter 0, addressed to the model [couplings]
    gives for [nullptr]. *)
Theorem addInput_last_payload_seeds_queue (adds : list (string * Q))
    (ms : list (ptr * string)) (cs : list (ptr * ptr)) :
  let s := addInputs adds (mkSimulator [] [] ms cs) in
  (forall r, map_find Qltb r (inputs s) = last_added r adds)
  /\ StronglySorted key_lt (inputs s)
  /\ exists s',
       Sim.scheduleEvents s = Ok s'
       /\ queue s' = List.map (seed_event (destination cs nullptr)) (inputs s).
Proof.
  cbv zeta. split; [|split].
  - intros r. rewrite addInputs_find. destruct (last_added r adds); reflexivity.
  - apply addInputs_sorted. constructor.
  - apply scheduleEvents_seeds.
Qed.

(** C6, as the code has it.  Run start makes no check of the
    configuration.  For every model registry and coupling table, with or
    without entry point, exit point or registered destinations, and for
    every input schedule that is not empty, [scheduleEvents] succeeds,
    the queue holds one external event per input addressed to the model
    [couplings] gives for [nullptr] (the null pointer when the entry
    point is unset), and [simulate] goes on with the first step. *)
Theorem simulate_starts_without_check (adds : list (string * Q))
    (ms : list (ptr * string)) (cs : list (ptr * ptr)) (mem : Memory)
    (fuel : nat) :
  adds <> [] ->
  let s := addInputs adds (mkSimulator [] [] ms cs) in
  exists s1,
    Sim.scheduleEvents s = Ok s1
    /\ queue s1 = List.map (seed_event (destination cs nullptr)) (inputs s)
    /\ queue s1 <> []
    /\ Sim.simulate (S fuel) s mem =
         ('(s2, mem2, sb2) <- Sim.step s1 mem [] ;;
          Sim.simulate_while fuel s2 mem2 sb2).
Proof.
  intros Hadds. cbv zeta.
  destruct (scheduleEvents_seeds adds ms cs) as (s1 & Hs1 & Hq).
  exists s1. split; [exact Hs1|]. split; [exact Hq|].
  assert (Hne : queue s1 <> []).
  { rewrite Hq. intros Hnil. apply map_eq_nil in Hnil.
    exact (addInputs_not_empty adds _ Hadds Hnil). }
  split; [exact Hne|].
  unfold Sim.simulate. rewrite Hs1. cbn [bind Sim.simulate_while].
  destruct (queue s1); [congruence|]. reflexivity.
Qed.

(** ** Routing of the recorded outputs *)

Lemma map_find_assign_N {V : Type} (k k' : ptr) (v : V) (m : list (ptr * V)) :
  map_find N.ltb k (map_assign N.ltb k' v m) =
    if (k =? k')%N then Some v else map_find N.ltb k m.
Proof.
  induction m as [|[a w] rest IH]; cbn [map_assign map_find].
  - destruct (N.ltb_spec k k'), (N.ltb_spec k' k), (N.eqb_spec k k');
      try reflexivity; lia.
  - destruct (N.ltb_spec k' a); [|destruct (N.ltb_spec a k')];
      cbn [map_find].
    + destruct (N.ltb_spec k k'), (N.ltb_spec k' k), (N.eqb_spec k k'),
        (N.ltb_spec k a); try reflexivity; lia.
    + rewrite IH.
      destruct (N.ltb_spec k a), (N.ltb_spec a k), (N.eqb_spec k k');
        try reflexivity; lia.
    + destruct (N.ltb_spec k a), (N.ltb_spec a k), (N.eqb_spec k k');
        try reflexivity; lia.
Qed.

(** Reading [couplings[m]] leaves the table with an entry for [m]: the
    one it had, or a new one with the null destination. *)
Lemma map_index_find (m : ptr) (cs : list (ptr * ptr)) (k : ptr) :
  map_find N.ltb k (snd (map_index N.ltb nullptr m cs)) =
    if (k =? m)%N then Some (destination cs m) else map_find N.ltb k cs.
Proof.
  unfold map_index, destination.
  destruct (map_find N.ltb m cs) as [d|] eqn:Hm; cbn [snd].
  - destruct (N.eqb_spec k m) as [->|_]; [exact Hm|reflexivity].
  - apply map_find_assign_N.
Qed.

(** Creating the missing entry of [m] changes no destination that is
    read afterwards. *)
Lemma destination_assign_missing (m : ptr) (cs : list (ptr * ptr)) :
  map_find N.ltb m cs = None ->
  forall k, destination (map_assign N.ltb m nullptr cs) k = destination cs k.
Proof.
  unfold destination.
  induction cs as [|[a d] rest IH]; intros Hm k; cbn [map_assign map_find] in *.
  - destruct (N.ltb_spec k m); [reflexivity|].
    destruct (N.ltb_spec m k); reflexivity.
  - destruct (N.ltb_spec m a) as [Hma|Hma].
    + cbn [map_find].
      destruct (N.ltb_spec k m) as [Hkm|Hkm].
      * destruct (N.ltb_spec k a); [reflexivity|lia].
      * destruct (N.ltb_spec m k) as [Hmk|Hmk]; [reflexivity|].
        assert (k = m) by lia. subst k.
        destruct (N.ltb_spec m a); [reflexivity|lia].
    + destruct (N.ltb_spec a m) as [Ham|Ham]; [|discriminate].
      cbn [map_find].
      destruct (N.ltb_spec k a); [reflexivity|].
      destruct (N.ltb_spec a k); [|reflexivity].
      apply IH. exact Hm.
Qed.

Lemma map_index_destination (m : ptr) (cs : list (ptr * ptr)) :
  fst (map_index N.ltb nullptr m cs) = destination cs m
  /\ forall k,
       destination (snd (map_index N.ltb nullptr m cs)) k = destination cs k.
Proof.
  unfold map_index, destination at 1.
  destruct (map_find N.ltb m cs) as [d|] eqn:Hm; cbn [fst snd].
  - split; reflexivity.
  - split; [reflexivity|]. apply destination_assign_missing. exact Hm.
Qed.

Lemma exit_models_ext (cs cs' : list (ptr * ptr)) (ms : list (ptr * string)) :
  (forall k, destination cs' k = destination cs k) ->
  exit_models cs' ms = exit_models cs ms.
Proof.
  intros H. unfold exit_models. apply filter_ext. intros model.
  rewrite H. reflexivity.
Qed.

Lemma coupled_models_ext (cs cs' : list (ptr * ptr)) (ms : list (ptr * string)) :
  (forall k, destination cs' k = destination cs k) ->
  coupled_models cs' ms = coupled_models cs ms.
Proof.
  intros H. unfold coupled_models. apply filter_ext. intros model.
  rewrite H. reflexivity.
Qed.

Lemma routing_calls_ext (r : Q) (cs cs' : list (ptr * ptr))
    (ms : list (ptr * string)) :
  (forall k, destination cs' k = destination cs k) ->
  List.map (routing_call r cs') ms = List.map (routing_call r cs) ms.
Proof.
  intros H. apply map_ext. intros model. unfold routing_call.
  rewrite H. reflexivity.
Qed.

Lemma routeOutputs_run (r : Q) (ms : list (ptr * string)) :
  forall cs q sb cs' q' sb',
    Sim.routeOutputs r ms cs q sb = Ok (cs', q', sb') ->
    sb' = sb ++ List.map (trace_record r) (exit_models cs ms)
    /\ schedule_all (List.map (routing_call r cs) (coupled_models cs ms)) q
       = Ok q'
    /\ forall k, destination cs' k = destination cs k.
Proof.
  induction ms as [|model rest IH]; intros cs q sb cs' q' sb' H;
    cbn [Sim.routeOutputs] in H.
  - inversion H; subst. cbn. rewrite app_nil_r. auto.
  - unfold exit_models, coupled_models. cbn [filter].
    fold (exit_models cs rest). fold (coupled_models cs rest).
    change (negb (snd model =? EmptyString)%string) with (has_output model) in H.
    destruct (has_output model); cbn [andb].
    + destruct (map_index_destination (fst model) cs) as [Hd Hk].
      destruct (map_index N.ltb nullptr (fst model) cs) as [dest cs1].
      cbn [fst snd] in Hd, Hk. subst dest.
      destruct (destination cs (fst model) =? nullptr)%N eqn:Hexit;
        cbn [negb].
      * apply IH in H. destruct H as (Hsb & Hq & Hcs).
        rewrite (exit_models_ext cs cs1) in Hsb by exact Hk.
        rewrite (coupled_models_ext cs cs1) in Hq by exact Hk.
        rewrite (routing_calls_ext r cs cs1) in Hq by exact Hk.
        split; [|split].
        -- rewrite Hsb. cbn [List.map]. rewrite <- app_assoc. reflexivity.
        -- exact Hq.
        -- intros k. rewrite Hcs. apply Hk.
      * destruct (map_index_destination (fst model) cs1) as [Hd2 Hk2].
        destruct (map_index N.ltb nullptr (fst model) cs1)
          as [destinationModel cs2].
        cbn [fst snd] in Hd2, Hk2. rewrite Hk in Hd2. subst destinationModel.
        destruct (scheduleExternalEvent (snd model) r
                    (destination cs (fst model)) q) as [q1|] eqn:Hs;
          cbn [bind] in H; [|discriminate].
        apply IH in H. destruct H as (Hsb & Hq & Hcs).
        assert (Hk12 : forall k, destination cs2 k = destination cs k).
        { intros k. rewrite Hk2. apply Hk. }
        rewrite (exit_models_ext cs cs2) in Hsb by exact Hk12.
        rewrite (coupled_models_ext cs cs2) in Hq by exact Hk12.
        rewrite (routing_calls_ext r cs cs2) in Hq by exact Hk12.
        split; [|split].
        -- exact Hsb.
        -- cbn [List.map schedule_all]. unfold routing_call at 1.
           cbn [schedule]. rewrite Hs. cbn [bind]. exact Hq.
        -- intros k. rewrite Hcs. apply Hk12.
    + apply IH in H. exact H.
Qed.

(** The coupling table the routing loop leaves: the entries it had,
    and one entry for every model whose coupling was read, with the
    destination that was read for it. *)
Lemma routeOutputs_couplings (r : Q) (ms : list (ptr * string)) :
  forall cs q sb cs' q' sb',
    Sim.routeOutputs r ms cs q sb = Ok (cs', q', sb') ->
    forall k,
      map_find N.ltb k cs' =
        if reads_coupling ms k then Some (destination cs k)
        else map_find N.ltb k cs.
Proof.
  induction ms as [|model rest IH]; intros cs q sb cs' q' sb' H k;
    cbn [Sim.routeOutputs] in H.
  - inversion H; subst. reflexivity.
  - unfold reads_coupling. cbn [existsb]. fold (reads_coupling rest k).
    change (negb (snd model =? EmptyString)%string) with (has_output model) in H.
    destruct (has_output model); cbn [andb orb].
    + pose proof (map_index_find (fst model) cs) as Hf.
      destruct (map_index_destination (fst model) cs) as [Hd Hk].
      destruct (map_index N.ltb nullptr (fst model) cs) as [dest cs1].
      cbn [fst snd] in Hd, Hk, Hf. subst dest.
      assert (Hgoal : forall cs2,
                (forall k', map_find N.ltb k' cs2 = map_find N.ltb k' cs1) ->
                (forall k', destination cs2 k' = destination cs k') ->
                (if reads_coupling rest k then Some (destination cs2 k)
                 else map_find N.ltb k cs2) =
                (if (fst model =? k)%N || reads_coupling rest k
                 then Some (destination cs k) else map_find N.ltb k cs)).
      { intros cs2 Hfind Hdest. rewrite Hdest, Hfind, Hf, (N.eqb_sym k).
        destruct (N.eqb_spec (fst model) k) as [->|_]; cbn [orb];
          destruct (reads_coupling rest k); reflexivity. }
      destruct (destination cs (fst model) =? nullptr)%N.
      * rewrite (IH _ _ _ _ _ _ H k). apply Hgoal; [reflexivity|exact Hk].
      * pose proof (map_index_find (fst model) cs1) as Hf2.
        destruct (map_index_destination (fst model) cs1) as [Hd2 Hk2].
        destruct (map_index N.ltb nullptr (fst model) cs1)
          as [destinationModel cs2].
        cbn [fst snd] in Hd2, Hk2, Hf2.
        destruct (scheduleExternalEvent (snd model) r destinationModel q)
          as [q1|]; cbn [bind] in H; [|discriminate].
        rewrite (IH _ _ _ _ _ _ H k). apply Hgoal.
        -- intros k'. rewrite Hf2.
           destruct (N.eqb_spec k' (fst model)) as [->|_]; [|reflexivity].
           rewrite Hk, Hf, N.eqb_refl. reflexivity.
        -- intros k'. rewrite Hk2. apply Hk.
    + exact (IH _ _ _ _ _ _ H k).
Qed.

(** C4, as the code has it.  In the routing loop of a step every model
    with a non-empty output whose destination reads as [nullptr] gets the
    record (r, output) appended to the trace, in the order of the model
    map, and every other model with a non-empty output gets an external
    event scheduled for its destination.  A model that has no entry in
    the coupling table reads [nullptr]: the read creates its entry with
    the null destination, its output is written to the trace like that
    of the exit point and nothing is scheduled for it.  The table the
    loop leaves has one entry for every model that was read, with the
    destination read for it, and is unchanged at every other key. *)
Theorem routeOutputs_uncoupled_to_trace (r : Q) (ms : list (ptr * string))
    (cs cs' : list (ptr * ptr)) (q q' : deque) (sb sb' : Trace) :
  Sim.routeOutputs r ms cs q sb = Ok (cs', q', sb') ->
  sb' = sb ++ List.map (trace_record r) (exit_models cs ms)
  /\ schedule_all (List.map (routing_call r cs) (coupled_models cs ms)) q
     = Ok q'
  /\ (forall m output,
        In (m, output) ms -> output <> EmptyString ->
        map_find N.ltb m cs = None ->
        map_find N.ltb m cs' = Some nullptr
        /\ In (m, output) (exit_models cs ms)
        /\ ~ In (m, output) (coupled_models cs ms))
  /\ (forall k,
        map_find N.ltb k cs' =
          if reads_coupling ms k then Some (destination cs k)
          else map_find N.ltb k cs).
Proof.
  intros H. pose proof (routeOutputs_couplings _ _ _ _ _ _ _ _ H) as Hcs.
  apply routeOutputs_run in H. destruct H as (Hsb & Hq & _).
  split; [exact Hsb|]. split; [exact Hq|]. split; [|exact Hcs].
  intros m output Hin Hout Hm.
  assert (Hd : destination cs m = nullptr).
  { unfold destination. rewrite Hm. reflexivity. }
  assert (Ho : has_output (m, output) = true).
  { unfold has_output. cbn [snd].
    destruct (String.eqb_spec output EmptyString); [contradiction|reflexivity]. }
  split; [|split].
  - rewrite Hcs, Hd.
    assert (Hr : reads_coupling ms m = true).
    { unfold reads_coupling. apply existsb_exists. exists (m, output).
      split; [exact Hin|]. rewrite Ho. cbn [fst andb]. apply N.eqb_refl. }
    rewrite Hr. reflexivity.
  - unfold exit_models. apply filter_In. split; [exact Hin|].
    rewrite Ho. cbn [fst andb]. rewrite Hd. reflexivity.
  - unfold coupled_models. rewrite filter_In. intros [_ Hc].
    cbn [fst] in Hc. rewrite Hd, Ho in Hc. discriminate Hc.
Qed.

(** ** Concrete runs *)

(** The scenario of [main]: fourteen parts leave the drill. *)
Example main_trace :
  trace_of (Sim.simulate 60 (main_simulator 1%N 2%N) (main_memory 1%N 2%N)) =
    Ok (List.map (fun k => (Qred ((9 # 2) + inject_Z (2 * Z.of_nat k))%Q,
                            "1 part completed"))
          (seq 0 14)).
Proof. vm_compute. reflexivity. Qed.

(** C8.  The specification asks that the trace does not depend on the
    address order of the models.  The same chain of three machines with
    the same inputs writes three records when the first press has the
    lower address and four records, at other times, when the second
    press has it. *)
Theorem trace_depends_on_addresses :
  trace_of (Sim.simulate 20 (chain_simulator 1%N 2%N 3%N)
              (chain_memory 1%N 2%N 3%N)) =
    Ok [(5%Q, "1 part completed"); (6%Q, "1 part completed");
        (8%Q, "1 part completed")]
  /\ trace_of (Sim.simulate 20 (chain_simulator 2%N 1%N 3%N)
                 (chain_memory 2%N 1%N 3%N)) =
       Ok [(5%Q, "1 part completed"); (7%Q, "1 part completed");
           (9%Q, "1 part completed"); (11%Q, "1 part completed")].
Proof.
  split; vm_compute; reflexivity.
Qed.

(** C4 fails as stated: the press of [no_exit_simulator] has no entry in
    the coupling table, and its output is written to the trace. *)
Lemma uncoupled_output_not_dropped :
  map_find N.ltb 1%N (couplings no_exit_simulator) = None
  /\ Sim.routeOutputs (5 # 2) [(1%N, "1")] (couplings no_exit_simulator) [] []
     = Ok ([(0%N, 1%N); (1%N, 0%N)], [], [(5 # 2, "1")])
  /\ trace_of (Sim.simulate 2 no_exit_simulator (mkMemory [(1%N, Press)] []))
     = Ok [(5 # 2, "1")].
Proof.
  repeat split; vm_compute; reflexivity.
Qed.

(** C6 fails as stated: with no exit point and a coupling to a model
    that was never registered the run is not refused; it calls five
    transitions and writes a record. *)
Lemma invalid_configuration_runs :
  map_find N.ltb 2%N (models unregistered_simulator) = None
  /\ calls_of (Sim.simulate 4 unregistered_simulator
                 (mkMemory [(1%N, Press); (2%N, Drill)] [])) =
       Ok [CallDeltaExt 1%N "1" (3 # 2); CallGetNextInternalEvent 1%N;
           CallLambda 1%N; CallDeltaInt 1%N (5 # 2);
           CallGetNextInternalEvent 1%N;
           CallDeltaExt 2%N "1" (5 # 2); CallGetNextInternalEvent 2%N;
           CallLambda 2%N; CallDeltaInt 2%N (9 # 2);
           CallGetNextInternalEvent 2%N]
  /\ trace_of (Sim.simulate 4 unregistered_simulator
                 (mkMemory [(1%N, Press); (2%N, Drill)] [])) =
       Ok [(9 # 2, "1 part completed")].
Proof.
  repeat split; vm_compute; reflexivity.
Qed.

(** The step in which a press with one part left completes it. *)
Lemma step_outputs_before_transitions_witness :
  match
    Sim.step
      (mkSimulator [InternalEvent EmptyString (mkTime (5 # 2) 0) 1%N] []
         [(1%N, EmptyString)] [(0%N, 1%N)])
      (mkMemory [(1%N, mkObject MachineClass (mkMachine 1 (Some (5 # 2)) 1))] [])
      []
  with
  | Ok (_, mem', _) =>
    exists events rest,
      getNextEvents [InternalEvent EmptyString (mkTime (5 # 2) 0) 1%N]
        = Ok (events, rest)
      /\ calls mem' = [] ++ output_calls events ++ transition_calls events
      /\ forallb (fun c => negb (is_lambda_call c)) (transition_calls events)
         = true
  | Fault _ => False
  end.
Proof.
  destruct (Sim.step
              (mkSimulator [InternalEvent EmptyString (mkTime (5 # 2) 0) 1%N] []
                 [(1%N, EmptyString)] [(0%N, 1%N)])
              (mkMemory
                 [(1%N, mkObject MachineClass (mkMachine 1 (Some (5 # 2)) 1))] [])
              []) as [[[s' mem'] sb']|f] eqn:Hstep.
  - exact (step_outputs_before_transitions _ _ _ _ _ _ Hstep).
  - apply (f_equal is_ok) in Hstep. vm_compute in Hstep. discriminate Hstep.
Defined.

Lemma routeOutputs_uncoupled_to_trace_witness :
  Sim.routeOutputs 3 [(1%N, "1"); (2%N, "1")] [(0%N, 1%N); (1%N, 2%N)]
    [ExternalEvent "1" (mkTime 4 0) 1%N] []
    = Ok ([(0%N, 1%N); (1%N, 2%N); (2%N, 0%N)],
          [ExternalEvent "1" (mkTime 3 0) 2%N;
           ExternalEvent "1" (mkTime 4 0) 1%N],
          [(3%Q, "1")])
  /\ ([(3%Q, "1")] =
        [] ++ List.map (trace_record 3)
                (exit_models [(0%N, 1%N); (1%N, 2%N)] [(1%N, "1"); (2%N, "1")])
      /\ schedule_all
           (List.map (routing_call 3 [(0%N, 1%N); (1%N, 2%N)])
              (coupled_models [(0%N, 1%N); (1%N, 2%N)]
                 [(1%N, "1"); (2%N, "1")]))
           [ExternalEvent "1" (mkTime 4 0) 1%N]
         = Ok [ExternalEvent "1" (mkTime 3 0) 2%N;
               ExternalEvent "1" (mkTime 4 0) 1%N]
      /\ (forall m output,
            In (m, output) [(1%N, "1"); (2%N, "1")] -> output <> EmptyString ->
            map_find N.ltb m [(0%N, 1%N); (1%N, 2%N)] = None ->
            map_find N.ltb m [(0%N, 1%N); (1%N, 2%N); (2%N, 0%N)]
              = Some nullptr
            /\ In (m, output)
                 (exit_models [(0%N, 1%N); (1%N, 2%N)]
                    [(1%N, "1"); (2%N, "1")])
            /\ ~ In (m, output)
                 (coupled_models [(0%N, 1%N); (1%N, 2%N)]
                    [(1%N, "1"); (2%N, "1")]))
      /\ (forall k,
            map_find N.ltb k [(0%N, 1%N); (1%N, 2%N); (2%N, 0%N)] =
              if reads_coupling [(1%N, "1"); (2%N, "1")] k
              then Some (destination [(0%N, 1%N); (1%N, 2%N)] k)
              else map_find N.ltb k [(0%N, 1%N); (1%N, 2%N)])).
Proof.
  split.
  - vm_compute. reflexivity.
  - apply (routeOutputs_uncoupled_to_trace 3 [(1%N, "1"); (2%N, "1")]
             [(0%N, 1%N); (1%N, 2%N)] [(0%N, 1%N); (1%N, 2%N); (2%N, 0%N)]
             [ExternalEvent "1" (mkTime 4 0) 1%N]
             [ExternalEvent "1" (mkTime 3 0) 2%N;
              ExternalEvent "1" (mkTime 4 0) 1%N]
             [] [(3%Q, "1")]).
    vm_compute. reflexivity.
Defined.

Lemma simulate_starts_without_check_witness :
  [("1", 3 # 2)] <> []
  /\ exists s1,
       Sim.scheduleEvents (addInputs [("1", 3 # 2)] (mkSimulator [] [] [] []))
         = Ok s1
       /\ queue s1 =
            List.map (seed_event (destination [] nullptr))
              (inputs (addInputs [("1", 3 # 2)] (mkSimulator [] [] [] [])))
       /\ queue s1 <> []
       /\ Sim.simulate 1
            (addInputs [("1", 3 # 2)] (mkSimulator [] [] [] []))
            (mkMemory [] []) =
            ('(s2, mem2, sb2) <- Sim.step s1 (mkMemory [] []) [] ;;
             Sim.simulate_while 0 s2 mem2 sb2).
Proof.
  split.
  - discriminate.
  - apply (simulate_starts_without_check [("1", 3 # 2)] [] [] (mkMemory [] []) 0).
    discriminate.
Defined.

(** ** Positions in the deque *)

Lemma deque_at_middle (pre post : deque) (e : Event) :
  deque_at (pre ++ e :: post) (length pre) = Ok e.
Proof.
  unfold deque_at. rewrite nth_error_app2 by lia.
  rewrite Nat.sub_diag. reflexivity.
Qed.

Lemma firstn_length_app (pre post : deque) :
  firstn (length pre) (pre ++ post) = pre.
Proof.
  induction pre as [|x pre IH]; cbn; [reflexivity|]. rewrite IH. reflexivity.
Qed.

Lemma skipn_length_app (pre post : deque) :
  skipn (length pre) (pre ++ post) = post.
Proof.
  induction pre as [|x pre IH]; cbn; [reflexivity|exact IH].
Qed.

Lemma deque_set_middle (pre post : deque) (e x : Event) :
  deque_set (length pre) x (pre ++ e :: post) = Ok (pre ++ x :: post).
Proof.
  rewrite deque_set_Ok by (rewrite length_app; cbn [length]; lia).
  unfold replaced_at. rewrite firstn_length_app.
  change (S (length pre)) with (1 + length pre).
  rewrite <- skipn_skipn, skipn_length_app. reflexivity.
Qed.

Lemma deque_insert_middle (pre post : deque) (x : Event) :
  deque_insert (length pre) x (pre ++ post) = Ok (pre ++ x :: post).
Proof.
  rewrite deque_insert_Ok by (rewrite length_app; lia).
  rewrite firstn_length_app, skipn_length_app. reflexivity.
Qed.

Lemma app_cons_assoc (pre post : deque) (e : Event) :
  pre ++ e :: post = (pre ++ [e]) ++ post.
Proof. rewrite <- app_assoc. reflexivity. Qed.

Lemma length_snoc (pre : deque) (e : Event) :
  length (pre ++ [e]) = S (length pre).
Proof. rewrite length_app. cbn [length]. lia. Qed.

(** ** Scheduling at a real time no pending event has *)

Lemma scheduleInternalEvent_for_fresh (r : Q) (model : ptr) (suf : deque) :
  forall pre fuel,
    length suf < fuel -> fresh_time r suf ->
    scheduleInternalEvent_for fuel r model (length pre) (pre ++ suf) =
      Ok (pre ++ insert_by_r (InternalEvent EmptyString (mkTime r 0) model) suf).
Proof.
  induction suf as [|e rest IH]; intros pre fuel Hfuel Hfresh;
    (destruct fuel as [|fuel]; [cbn [length] in Hfuel; lia|]);
    cbn [scheduleInternalEvent_for insert_by_r].
  - rewrite app_nil_r, Nat.ltb_irrefl. reflexivity.
  - assert (Hlt : (length pre <? length (pre ++ e :: rest)) = true).
    { apply Nat.ltb_lt. rewrite length_app. cbn [length]. lia. }
    rewrite Hlt, deque_at_middle. cbn [bind].
    apply Forall_inv in Hfresh as He. apply Forall_inv_tail in Hfresh.
    unfold eventR in *. cbn [InternalEvent getTime getR].
    destruct (Qeqb_spec (getR (getTime e)) r); [contradiction|].
    destruct (Qgtb (getR (getTime e)) r).
    + apply deque_insert_middle.
    + rewrite app_cons_assoc, <- (length_snoc pre e).
      rewrite IH by (cbn [length] in Hfuel; (lia || assumption)).
      rewrite <- app_assoc. reflexivity.
Qed.

Lemma scheduleExternalEvent_for_fresh (input : string) (r : Q) (model : ptr)
    (suf : deque) :
  forall pre fuel,
    length suf < fuel -> fresh_time r suf ->
    scheduleExternalEvent_for fuel input r model (length pre) (pre ++ suf) =
      Ok (pre ++ insert_by_r (ExternalEvent input (mkTime r 0) model) suf).
Proof.
  induction suf as [|e rest IH]; intros pre fuel Hfuel Hfresh;
    (destruct fuel as [|fuel]; [cbn [length] in Hfuel; lia|]);
    cbn [scheduleExternalEvent_for insert_by_r].
  - rewrite app_nil_r, Nat.ltb_irrefl. reflexivity.
  - assert (Hlt : (length pre <? length (pre ++ e :: rest)) = true).
    { apply Nat.ltb_lt. rewrite length_app. cbn [length]. lia. }
    rewrite Hlt, deque_at_middle. cbn [bind].
    apply Forall_inv in Hfresh as He. apply Forall_inv_tail in Hfresh.
    unfold eventR in *. cbn [ExternalEvent getTime getR].
    destruct (Qeqb_spec (getR (getTime e)) r); [contradiction|].
    destruct (Qgtb (getR (getTime e)) r).
    + apply deque_insert_middle.
    + rewrite app_cons_assoc, <- (length_snoc pre e).
      rewrite IH by (cbn [length] in Hfuel; (lia || assumption)).
      rewrite <- app_assoc. reflexivity.
Qed.

Lemma schedule_fresh_insert (c : ScheduleCall) (q : deque) :
  fresh_time (call_r c) q -> schedule c q = Ok (insert_by_r (call_event c) q).
Proof.
  intros Hfresh. destruct c as [r model|input r model];
    cbn [schedule call_event call_r] in *.
  - unfold scheduleInternalEvent.
    apply (scheduleInternalEvent_for_fresh r model q []); [lia|exact Hfresh].
  - unfold scheduleExternalEvent.
    apply (scheduleExternalEvent_for_fresh input r model q []);
      [lia|exact Hfresh].
Qed.

Lemma forallb_insert_by_r (p : Event -> bool) (new : Event) (q : deque) :
  forallb p (insert_by_r new q) = p new && forallb p q.
Proof.
  induction q as [|e rest IH]; cbn [insert_by_r forallb].
  - reflexivity.
  - destruct (Qgtb (eventR e) (eventR new)); cbn [forallb].
    + reflexivity.
    + rewrite IH. destruct (p e), (p new); reflexivity.
Qed.

Lemma pairwise_insert_unrelated (ok : Event -> Event -> bool) (new : Event)
    (q : deque) :
  (forall x, In x q -> ok new x = true /\ ok x new = true) ->
  pairwise ok q = true -> pairwise ok (insert_by_r new q) = true.
Proof.
  induction q as [|e rest IH]; intros Hok Hq; cbn [insert_by_r pairwise].
  - reflexivity.
  - cbn [pairwise] in Hq. apply andb_prop in Hq. destruct Hq as [He Hrest].
    destruct (Qgtb (eventR e) (eventR new)); cbn [pairwise].
    + apply andb_true_intro. split.
      * apply forallb_forall. intros x Hx. apply Hok. exact Hx.
      * cbn [pairwise]. rewrite He, Hrest. reflexivity.
    + rewrite forallb_insert_by_r, He, andb_true_r.
      apply andb_true_intro. split.
      * apply Hok. left. reflexivity.
      * apply IH; [|exact Hrest]. intros x Hx. apply Hok. right. exact Hx.
Qed.

Lemma sorted_insert_by_r (new : Event) (q : deque) :
  sorted_by_r q = true -> sorted_by_r (insert_by_r new q) = true.
Proof.
  unfold sorted_by_r.
  induction q as [|e rest IH]; intros Hq; cbn [insert_by_r pairwise].
  - reflexivity.
  - cbn [pairwise] in Hq. apply andb_prop in Hq. destruct Hq as [He Hrest].
    destruct (Qgtb_spec (eventR e) (eventR new)) as [Hgt|Hle]; cbn [pairwise].
    + rewrite He, Hrest, !andb_true_r. cbn [forallb].
      apply andb_true_intro. split.
      * apply Qle_bool_iff. lra.
      * apply forallb_forall. intros x Hx.
        rewrite forallb_forall in He. specialize (He x Hx).
        apply Qle_bool_iff in He. apply Qle_bool_iff. lra.
    + rewrite forallb_insert_by_r, He, andb_true_r.
      apply andb_true_intro. split.
      * apply Qle_bool_iff. exact Hle.
      * apply IH. exact Hrest.
Qed.

Lemma queue_invariant_insert_fresh (new : Event) (q : deque) :
  fresh_time (eventR new) q -> queue_invariant q = true ->
  queue_invariant (insert_by_r new q) = true.
Proof.
  unfold queue_invariant, fresh_time. intros Hfresh Hq.
  apply andb_prop in Hq. destruct Hq as [Hq Hone].
  apply andb_prop in Hq. destruct Hq as [Hsorted Hinc].
  rewrite Forall_forall in Hfresh.
  rewrite sorted_insert_by_r by exact Hsorted.
  unfold increasing_c, one_per_model_r in *.
  rewrite !pairwise_insert_unrelated; try assumption; try reflexivity.
  - intros x Hx. specialize (Hfresh x Hx).
    destruct (Qeqb_spec (eventR new) (eventR x)) as [H|_];
      [exfalso; apply Hfresh; symmetry; exact H|].
    destruct (Qeqb_spec (eventR x) (eventR new)) as [H|_];
      [contradiction|].
    rewrite !andb_false_r. split; reflexivity.
  - intros x Hx. specialize (Hfresh x Hx).
    destruct (Qeqb_spec (eventR new) (eventR x)) as [H|_];
      [exfalso; apply Hfresh; symmetry; exact H|].
    destruct (Qeqb_spec (eventR x) (eventR new)) as [H|_];
      [contradiction|].
    split; reflexivity.
Qed.

Lemma call_event_r (c : ScheduleCall) : eventR (call_event c) = call_r c.
Proof. destruct c; reflexivity. Qed.

(** The split [insert_by_r] makes of a queue with no entry at the new
    real time. *)
Lemma insert_by_r_split (r : Q) (q : deque) :
  fresh_time r q ->
  exists pre post,
    q = pre ++ post
    /\ Forall (fun e => (eventR e < r)%Q) pre
    /\ match post with [] => True | e :: _ => (r < eventR e)%Q end
    /\ forall new, eventR new = r -> insert_by_r new q = pre ++ new :: post.
Proof.
  induction q as [|e rest IH]; intros Hfresh.
  - exists [], []. repeat split; auto.
  - apply Forall_inv in Hfresh as He. apply Forall_inv_tail in Hfresh.
    destruct (Qgtb_spec (eventR e) r) as [Hgt|Hle].
    + exists [], (e :: rest). repeat split; auto.
      intros new Hnew. cbn [insert_by_r app]. rewrite Hnew.
      destruct (Qgtb_spec (eventR e) r); [reflexivity|exfalso; lra].
    + destruct (IH Hfresh) as (pre & post & Hq & Hpre & Hpost & Hins).
      exists (e :: pre), post. repeat split.
      * cbn [app]. rewrite Hq. reflexivity.
      * constructor; [|exact Hpre].
        destruct (Qlt_le_dec (eventR e) r) as [Hlt|Hge]; [exact Hlt|].
        exfalso. apply He. lra.
      * exact Hpost.
      * intros new Hnew. cbn [insert_by_r app]. rewrite Hnew.
        destruct (Qgtb_spec (eventR e) r); [exfalso; lra|].
        rewrite (Hins new Hnew). reflexivity.
Qed.

(** X1.  A scheduling call at a real time that no pending event has
    merges with nothing: the new event, with counter 0, is put before
    the first entry of greater real time, or at the back when there is
    none, and every other entry keeps its place. *)
Theorem schedule_fresh_time_inserts (c : ScheduleCall) (q : deque) :
  fresh_time (call_r c) q ->
  exists pre post,
    q = pre ++ post
    /\ schedule c q = Ok (pre ++ call_event c :: post)
    /\ eventC (call_event c) = 0%Z
    /\ Forall (fun e => (eventR e < call_r c)%Q) pre
    /\ match post with [] => True | e :: _ => (call_r c < eventR e)%Q end.
Proof.
  intros Hfresh.
  destruct (insert_by_r_split (call_r c) q Hfresh)
    as (pre & post & Hq & Hpre & Hpost & Hins).
  exists pre, post. split; [exact Hq|]. split.
  - rewrite schedule_fresh_insert by exact Hfresh.
    rewrite (Hins (call_event c) (call_event_r c)). reflexivity.
  - split; [destruct c; reflexivity|]. split; assumption.
Qed.

(** X2.  On a queue that satisfies the ordering invariant, a scheduling
    call at a real time that no pending event has returns a queue that
    satisfies it too. *)
Theorem schedule_fresh_time_keeps_invariant (c : ScheduleCall) (q : deque) :
  queue_invariant q = true -> fresh_time (call_r c) q ->
  exists q', schedule c q = Ok q' /\ queue_invariant q' = true.
Proof.
  intros Hq Hfresh. exists (insert_by_r (call_event c) q). split.
  - apply schedule_fresh_insert. exact Hfresh.
  - apply queue_invariant_insert_fresh; [|exact Hq].
    rewrite call_event_r. exact Hfresh.
Qed.

(** ** Scheduling at a real time that pending events have *)

Lemma scheduleInternalEvent_for_skip (r : Q) (model : ptr) (suf : deque)
    (fuel : nat) (pre : deque) :
  forall pre0,
    Forall (fun e => (eventR e < r)%Q) pre ->
    scheduleInternalEvent_for (length pre + S fuel) r model (length pre0)
      (pre0 ++ pre ++ suf) =
    scheduleInternalEvent_for (S fuel) r model (length (pre0 ++ pre))
      (pre0 ++ pre ++ suf).
Proof.
  induction pre as [|e pre IH]; intros pre0 Hpre.
  - rewrite app_nil_r. reflexivity.
  - apply Forall_inv in Hpre as He. apply Forall_inv_tail in Hpre.
    cbn [length Nat.add scheduleInternalEvent_for app].
    assert (Hlt : (length pre0 <? length (pre0 ++ e :: pre ++ suf)) = true).
    { apply Nat.ltb_lt. rewrite length_app. cbn [length]. lia. }
    rewrite Hlt, deque_at_middle. cbn [bind]. unfold eventR in He.
    destruct (Qeqb_spec (getR (getTime e)) r); [exfalso; lra|].
    destruct (Qgtb_spec (getR (getTime e)) r); [exfalso; lra|].
    rewrite (app_cons_assoc pre0), <- (length_snoc pre0 e).
    rewrite IH by exact Hpre. rewrite <- !app_assoc. reflexivity.
Qed.

Lemma scheduleExternalEvent_for_skip (input : string) (r : Q) (model : ptr)
    (suf : deque) (fuel : nat) (pre : deque) :
  forall pre0,
    Forall (fun e => (eventR e < r)%Q) pre ->
    scheduleExternalEvent_for (length pre + S fuel) input r model (length pre0)
      (pre0 ++ pre ++ suf) =
    scheduleExternalEvent_for (S fuel) input r model (length (pre0 ++ pre))
      (pre0 ++ pre ++ suf).
Proof.
  induction pre as [|e pre IH]; intros pre0 Hpre.
  - rewrite app_nil_r. reflexivity.
  - apply Forall_inv in Hpre as He. apply Forall_inv_tail in Hpre.
    cbn [length Nat.add scheduleExternalEvent_for app].
    assert (Hlt : (length pre0 <? length (pre0 ++ e :: pre ++ suf)) = true).
    { apply Nat.ltb_lt. rewrite length_app. cbn [length]. lia. }
    rewrite Hlt, deque_at_middle. cbn [bind]. unfold eventR in He.
    destruct (Qeqb_spec (getR (getTime e)) r); [exfalso; lra|].
    destruct (Qgtb_spec (getR (getTime e)) r); [exfalso; lra|].
    rewrite (app_cons_assoc pre0), <- (length_snoc pre0 e).
    rewrite IH by exact Hpre. rewrite <- !app_assoc. reflexivity.
Qed.

(** The loops reach the first entry that is not earlier than [r]. *)
Lemma scheduleInternalEvent_reaches (r : Q) (model : ptr) (pre suf : deque) :
  Forall (fun e => (eventR e < r)%Q) pre ->
  scheduleInternalEvent r model (pre ++ suf) =
    scheduleInternalEvent_for (S (length suf)) r model (length pre) (pre ++ suf).
Proof.
  intros Hpre. unfold scheduleInternalEvent.
  rewrite length_app, <- Nat.add_succ_r.
  exact (scheduleInternalEvent_for_skip r model suf (length suf) pre [] Hpre).
Qed.

Lemma scheduleExternalEvent_reaches (input : string) (r : Q) (model : ptr)
    (pre suf : deque) :
  Forall (fun e => (eventR e < r)%Q) pre ->
  scheduleExternalEvent input r model (pre ++ suf) =
    scheduleExternalEvent_for (S (length suf)) input r model (length pre)
      (pre ++ suf).
Proof.
  intros Hpre. unfold scheduleExternalEvent.
  rewrite length_app, <- Nat.add_succ_r.
  exact (scheduleExternalEvent_for_skip input r model suf (length suf) pre []
           Hpre).
Qed.

Lemma middle_lt_length (pre post : deque) (e : Event) :
  (length pre <? length (pre ++ e :: post)) = true.
Proof. apply Nat.ltb_lt. rewrite length_app. cbn [length]. lia. Qed.

(** The first entry at [r], when it belongs to the model of the call. *)
Lemma scheduleInternalEvent_own_first (r : Q) (model : ptr) (pre post : deque)
    (e : Event) :
  Forall (fun x => (eventR x < r)%Q) pre ->
  (eventR e == r)%Q -> getModel e = model ->
  scheduleInternalEvent r model (pre ++ e :: post) =
    if (getType e =? "external")%string
    then Ok (pre ++
             ConfluentEvent (getInput e) (mkTime r (eventC e)) model :: post)
    else Ok (pre ++ e :: post).
Proof.
  intros Hpre Hr Hm. rewrite scheduleInternalEvent_reaches by exact Hpre.
  cbn [scheduleInternalEvent_for]. rewrite middle_lt_length, deque_at_middle.
  cbn [bind]. unfold eventR in Hr.
  destruct (Qeqb_spec (getR (getTime e)) r); [|contradiction].
  rewrite Hm, N.eqb_refl.
  destruct (getType e =? "external")%string; [|reflexivity].
  unfold scheduleConfluentEvent. rewrite deque_set_middle. reflexivity.
Qed.

Lemma scheduleExternalEvent_own_first (input : string) (r : Q) (model : ptr)
    (pre post : deque) (e : Event) :
  Forall (fun x => (eventR x < r)%Q) pre ->
  (eventR e == r)%Q -> getModel e = model -> getType e = "internal" ->
  scheduleExternalEvent input r model (pre ++ e :: post) =
    Ok (pre ++ ConfluentEvent input (mkTime r (eventC e)) model :: post).
Proof.
  intros Hpre Hr Hm Ht. rewrite scheduleExternalEvent_reaches by exact Hpre.
  cbn [scheduleExternalEvent_for]. rewrite middle_lt_length, deque_at_middle.
  cbn [bind]. unfold eventR in Hr.
  destruct (Qeqb_spec (getR (getTime e)) r); [|contradiction].
  cbn [scheduleExternalEvent_while]. rewrite Ht, Hm, N.eqb_refl.
  cbn [String.eqb Ascii.eqb Bool.eqb]. apply deque_set_middle.
Qed.

(** X3.  On a queue in which every entry before the first entry at
    real time [r] has a smaller real time, as on a queue sorted by real
    time: when that first entry at [r] belongs to the model of the
    call, [scheduleInternalEvent] replaces an external entry, in place,
    by a confluent event with the payload and counter of that entry,
    and leaves the queue as it is when the entry is an internal or
    confluent one; no other entry changes. *)
Theorem scheduleInternalEvent_at_own_entry (r : Q) (model : ptr)
    (pre post : deque) (e : Event) :
  Forall (fun x => (eventR x < r)%Q) pre ->
  (eventR e == r)%Q -> getModel e = model ->
  scheduleInternalEvent r model (pre ++ e :: post) =
    if (getType e =? "external")%string
    then Ok (pre ++
             ConfluentEvent (getInput e) (mkTime r (eventC e)) model :: post)
    else Ok (pre ++ e :: post).
Proof.
  exact (scheduleInternalEvent_own_first r model pre post e).
Qed.

(** X4.  On a queue in which every entry before the first entry at
    real time [r] has a smaller real time, as on a queue sorted by real
    time: when that first entry at [r] is an internal event of the
    model of the call, [scheduleExternalEvent] replaces it, in place,
    by a confluent event with the new payload and the counter of that
    entry; no other entry changes. *)
Theorem scheduleExternalEvent_at_own_internal (input : string) (r : Q)
    (model : ptr) (pre post : deque) (e : Event) :
  Forall (fun x => (eventR x < r)%Q) pre ->
  (eventR e == r)%Q -> getModel e = model -> getType e = "internal" ->
  scheduleExternalEvent input r model (pre ++ e :: post) =
    Ok (pre ++ ConfluentEvent input (mkTime r (eventC e)) model :: post).
Proof.
  exact (scheduleExternalEvent_own_first input r model pre post e).
Qed.

(** X5.  At a real time that no pending event has, an external and an
    internal event for one model merge into one confluent event with
    the external payload and counter 0, whichever of the two is
    scheduled first; the result is the queue with that one event
    inserted by real time. *)
Theorem fresh_confluence_either_order (input : string) (r : Q) (model : ptr)
    (q : deque) :
  fresh_time r q ->
  schedule_all [CallScheduleExternal input r model;
                CallScheduleInternal r model] q =
    Ok (insert_by_r (ConfluentEvent input (mkTime r 0) model) q)
  /\ schedule_all [CallScheduleInternal r model;
                   CallScheduleExternal input r model] q =
       Ok (insert_by_r (ConfluentEvent input (mkTime r 0) model) q).
Proof.
  intros Hfresh.
  destruct (insert_by_r_split r q Hfresh)
    as (pre & post & Hq & Hpre & _ & Hins).
  cbn [schedule_all].
  rewrite (schedule_fresh_insert (CallScheduleExternal input r model))
    by exact Hfresh.
  rewrite (schedule_fresh_insert (CallScheduleInternal r model))
    by exact Hfresh.
  cbn [bind call_event schedule].
  rewrite !Hins by reflexivity. split.
  - rewrite scheduleInternalEvent_own_first;
      [reflexivity|exact Hpre|reflexivity|reflexivity].
  - rewrite scheduleExternalEvent_own_first;
      [reflexivity|exact Hpre|reflexivity|reflexivity|reflexivity].
Qed.

(** X6.  At a real time that no pending event has, scheduling the same
    internal event a second time changes nothing: the queue holds one
    internal event for that model and time. *)
Theorem fresh_internal_twice (r : Q) (model : ptr) (q : deque) :
  fresh_time r q ->
  schedule_all [CallScheduleInternal r model; CallScheduleInternal r model] q =
    schedule_all [CallScheduleInternal r model] q.
Proof.
  intros Hfresh.
  destruct (insert_by_r_split r q Hfresh)
    as (pre & post & Hq & Hpre & _ & Hins).
  cbn [schedule_all].
  rewrite (schedule_fresh_insert (CallScheduleInternal r model))
    by exact Hfresh.
  cbn [bind call_event schedule].
  rewrite !Hins by reflexivity.
  rewrite scheduleInternalEvent_own_first;
    [reflexivity|exact Hpre|reflexivity|reflexivity].
Qed.

(** ** The counter of an event put behind entries of the same real time *)

Lemma scheduleExternalEvent_while_run (input : string) (r : Q) (model : ptr)
    (i : nat) (x0 : Event) (post : deque) (run : deque) :
  forall front e fuel,
    length run < fuel ->
    getType e <> "internal" ->
    Forall (fun x => (eventR x == r)%Q /\ getType x <> "internal") run ->
    ~ (eventR x0 == r)%Q ->
    scheduleExternalEvent_while fuel input r model i (length front) e
      (front ++ e :: run ++ x0 :: post) =
    Ok (front ++ e :: run ++
        ExternalEvent input (mkTime r (eventC (last_of e run) + 1)) model
        :: x0 :: post).
Proof.
  induction run as [|e' rr IH]; intros front e fuel Hfuel He Hrun Hx0;
    (destruct fuel as [|fuel]; [cbn [length] in Hfuel; lia|]);
    cbn [scheduleExternalEvent_while last_of].
  - apply String.eqb_neq in He. rewrite He.
    rewrite (app_cons_assoc front), <- (length_snoc front e).
    cbn [app]. rewrite deque_at_middle. cbn [bind]. unfold eventR in Hx0.
    destruct (Qeqb_spec (getR (getTime x0)) r); [contradiction|].
    rewrite deque_insert_middle, <- app_assoc. reflexivity.
  - apply String.eqb_neq in He as He'. rewrite He'.
    rewrite (app_cons_assoc front), <- (length_snoc front e).
    cbn [app]. rewrite deque_at_middle. cbn [bind].
    pose proof (Forall_inv Hrun) as [Hr' Ht']. apply Forall_inv_tail in Hrun.
    unfold eventR in Hr'.
    destruct (Qeqb_spec (getR (getTime e')) r); [|contradiction].
    rewrite (IH (front ++ [e]) e' fuel); try assumption;
      [|cbn [length] in Hfuel; lia].
    rewrite <- !app_assoc. reflexivity.
Qed.

Lemma scheduleInternalEvent_while_run (r : Q) (model : ptr) (i : nat)
    (x0 y0 : Event) (post : deque) (run : deque) :
  forall front e fuel,
    S (length run) < fuel ->
    (eventR e == r)%Q -> getModel e <> model ->
    Forall (fun x => (eventR x == r)%Q /\ getModel x <> model) run ->
    ~ (eventR x0 == r)%Q ->
    scheduleInternalEvent_while fuel r model i (length front) e
      (front ++ e :: run ++ x0 :: y0 :: post) =
    Ok (front ++ e :: run ++
        InternalEvent EmptyString (mkTime r (eventC (last_of e run) + 1)) model
        :: x0 :: y0 :: post).
Proof.
  induction run as [|e' rr IH]; intros front e fuel Hfuel Hr He Hrun Hx0;
    (destruct fuel as [|fuel]; [cbn [length] in Hfuel; lia|]);
    cbn [scheduleInternalEvent_while last_of].
  - assert (Hlt : (length front <?
                   length (front ++ e :: [] ++ x0 :: y0 :: post) - 1) = true).
    { apply Nat.ltb_lt. rewrite length_app. cbn [length app]. lia. }
    rewrite Hlt. unfold eventR in Hr, Hx0.
    destruct (Qeqb_spec (getR (getTime e)) r); [|contradiction].
    apply N.eqb_neq in He. rewrite He.
    rewrite (app_cons_assoc front), <- (length_snoc front e).
    cbn [app]. rewrite deque_at_middle. cbn [bind].
    destruct fuel as [|fuel]; [cbn [length] in Hfuel; lia|].
    cbn [scheduleInternalEvent_while].
    assert (Hlt2 : (length (front ++ [e]) <?
                    length ((front ++ [e]) ++ x0 :: y0 :: post) - 1) = true).
    { apply Nat.ltb_lt. rewrite !length_app. cbn [length]. lia. }
    rewrite Hlt2.
    destruct (Qeqb_spec (getR (getTime x0)) r); [contradiction|].
    rewrite length_snoc at 1. cbn [deque_before].
    rewrite <- app_assoc. cbn [app]. rewrite deque_at_middle. cbn [bind].
    destruct (Qeqb_spec (getR (getTime e)) r); [|contradiction].
    rewrite (app_cons_assoc front (x0 :: y0 :: post) e).
    rewrite deque_insert_middle, <- app_assoc. reflexivity.
  - assert (Hlt : (length front <?
                   length (front ++ e :: (e' :: rr) ++ x0 :: y0 :: post) - 1)
                  = true).
    { apply Nat.ltb_lt. rewrite length_app. cbn [length app]. lia. }
    rewrite Hlt. unfold eventR in Hr.
    destruct (Qeqb_spec (getR (getTime e)) r); [|contradiction].
    apply N.eqb_neq in He as He'. rewrite He'.
    rewrite (app_cons_assoc front), <- (length_snoc front e).
    cbn [app]. rewrite deque_at_middle. cbn [bind].
    pose proof (Forall_inv Hrun) as [Hr' Hm']. apply Forall_inv_tail in Hrun.
    rewrite (IH (front ++ [e]) e' fuel); try assumption;
      [|cbn [length] in Hfuel; lia].
    rewrite <- !app_assoc. reflexivity.
Qed.

(** X7.  When the pending entries at real time [r] start right after
    the earlier ones, none of them is an internal event and a later
    entry follows them, [scheduleExternalEvent] puts the new external
    event right behind them with the counter of the last of them plus
    one.  The entries may belong to the model of the call: external
    events of one model and time are kept side by side. *)
Theorem scheduleExternalEvent_behind_run (input : string) (r : Q) (model : ptr)
    (pre run post : deque) (e x0 : Event) :
  Forall (fun x => (eventR x < r)%Q) pre ->
  (eventR e == r)%Q -> getType e <> "internal" ->
  Forall (fun x => (eventR x == r)%Q /\ getType x <> "internal") run ->
  ~ (eventR x0 == r)%Q ->
  scheduleExternalEvent input r model (pre ++ e :: run ++ x0 :: post) =
    Ok (pre ++ e :: run ++
        ExternalEvent input (mkTime r (eventC (last_of e run) + 1)) model
        :: x0 :: post).
Proof.
  intros Hpre Hr He Hrun Hx0.
  rewrite scheduleExternalEvent_reaches by exact Hpre.
  cbn [scheduleExternalEvent_for]. rewrite middle_lt_length, deque_at_middle.
  cbn [bind]. unfold eventR in Hr.
  destruct (Qeqb_spec (getR (getTime e)) r); [|contradiction].
  apply scheduleExternalEvent_while_run; try assumption.
  rewrite length_app. cbn [length]. rewrite length_app. lia.
Qed.

(** X8.  When the pending entries at real time [r] start right after
    the earlier ones, all belong to other models and at least two later
    entries follow them, [scheduleInternalEvent] puts the new internal
    event right behind them with the counter of the last of them plus
    one. *)
Theorem scheduleInternalEvent_behind_run (r : Q) (model : ptr)
    (pre run post : deque) (e x0 y0 : Event) :
  Forall (fun x => (eventR x < r)%Q) pre ->
  (eventR e == r)%Q -> getModel e <> model ->
  Forall (fun x => (eventR x == r)%Q /\ getModel x <> model) run ->
  ~ (eventR x0 == r)%Q ->
  scheduleInternalEvent r model (pre ++ e :: run ++ x0 :: y0 :: post) =
    Ok (pre ++ e :: run ++
        InternalEvent EmptyString (mkTime r (eventC (last_of e run) + 1)) model
        :: x0 :: y0 :: post).
Proof.
  intros Hpre Hr He Hrun Hx0.
  rewrite scheduleInternalEvent_reaches by exact Hpre.
  cbn [scheduleInternalEvent_for]. rewrite middle_lt_length, deque_at_middle.
  cbn [bind]. pose proof Hr as Hr'. unfold eventR in Hr'.
  destruct (Qeqb_spec (getR (getTime e)) r); [|contradiction].
  apply N.eqb_neq in He as He'. rewrite He'.
  assert (Hlast : (length pre =?
                   length (pre ++ e :: run ++ x0 :: y0 :: post) - 1) = false).
  { apply Nat.eqb_neq. rewrite length_app. cbn [length].
    rewrite length_app. cbn [length]. lia. }
  rewrite Hlast.
  apply scheduleInternalEvent_while_run; try assumption.
  rewrite length_app. cbn [length]. rewrite length_app. cbn [length]. lia.
Qed.

(** ** [getNextEvents] and [timeAdvance] *)

Lemma leading_after_run (r : Q) (q : deque) :
  leading_run r q ++ after_run r q = q.
Proof.
  induction q as [|e rest IH]; cbn [leading_run after_run]; [reflexivity|].
  destruct (Qeq_bool (eventR e) r); [|reflexivity].
  cbn [app]. rewrite IH. reflexivity.
Qed.

Lemma leading_run_same_r (r : Q) (q : deque) :
  Forall (fun e => (eventR e == r)%Q) (leading_run r q).
Proof.
  induction q as [|e rest IH]; cbn [leading_run]; [constructor|].
  destruct (Qeqb_spec (eventR e) r); constructor; assumption.
Qed.

Lemma after_run_head (r : Q) (q : deque) :
  match after_run r q with
  | [] => True
  | e :: _ => ~ (eventR e == r)%Q
  end.
Proof.
  induction q as [|e rest IH]; cbn [after_run]; [exact I|].
  destruct (Qeqb_spec (eventR e) r); assumption.
Qed.

Lemma after_run_nil (r : Q) (q : deque) :
  after_run r q = [] <-> Forall (fun e => (eventR e == r)%Q) q.
Proof.
  induction q as [|e rest IH]; cbn [after_run].
  - split; [constructor|reflexivity].
  - destruct (Qeqb_spec (eventR e) r) as [Hr|Hr].
    + rewrite IH. split; intros H.
      * constructor; assumption.
      * apply Forall_inv_tail in H. exact H.
    + split; [discriminate|]. intros H. apply Forall_inv in H. contradiction.
Qed.

(** X9.  [getNextEvents] fails on exactly one kind of queue: a queue
    that is not empty and whose entries all have real time -1, the value
    the loop uses as the mark of the empty queue; there it reads the
    first element of the emptied queue.  On every other queue it
    returns. *)
Theorem getNextEvents_fault_iff (q : deque) :
  (forall f, getNextEvents q = Fault f ->
     f = OutOfBounds /\ q <> []
     /\ Forall (fun e => (eventR e == -1)%Q) q)
  /\ (q <> [] -> Forall (fun e => (eventR e == -1)%Q) q ->
      getNextEvents q = Fault OutOfBounds).
Proof.
  rewrite getNextEvents_run. destruct q as [|e rest].
  - split; [discriminate|congruence].
  - pose proof (after_run_nil (eventR e) (e :: rest)) as Hnil.
    destruct (after_run (eventR e) (e :: rest)) as [|x rest'] eqn:Hafter;
      cbn [isEmpty andb].
    + destruct Hnil as [Hall _]. specialize (Hall eq_refl).
      destruct (Qeqb_spec (-1) (eventR e)) as [Hs|Hs].
      * split.
        -- intros f Hf. inversion Hf. split; [reflexivity|].
           split; [discriminate|].
           eapply Forall_impl; [|exact Hall]. cbn beta. intros a Ha.
           rewrite Ha. symmetry. exact Hs.
        -- reflexivity.
      * split; [discriminate|]. intros _ Hq. exfalso.
        apply Forall_inv in Hq. apply Hs. symmetry. exact Hq.
    + split; [discriminate|]. intros _ Hq. exfalso.
      destruct Hnil as [_ Hnil]. cut (x :: rest' = []); [discriminate|].
      apply Hnil. eapply Forall_impl; [|exact Hq]. cbn beta. intros a Ha.
      apply Forall_inv in Hq. rewrite Ha, Hq. reflexivity.
Qed.

(** X10.  When [getNextEvents] returns, the events it hands out followed
    by the queue it leaves are the queue it was given, in the same
    order; the events handed out all have the real time of the first
    entry, which is the value of [timeAdvance], there is at least one of
    them unless the queue was empty, and the entry left at the front
    has another real time. *)
Theorem getNextEvents_splits_queue (q events rest : deque) :
  getNextEvents q = Ok (events, rest) ->
  events ++ rest = q
  /\ (q <> [] -> events <> [])
  /\ (forall r, timeAdvance q = Ok r ->
        Forall (fun e => (eventR e == r)%Q) events
        /\ match rest with [] => True | e :: _ => ~ (eventR e == r)%Q end).
Proof.
  rewrite getNextEvents_run. destruct q as [|e q'].
  - intros H. inversion H. repeat split; [congruence|discriminate].
  - destruct (isEmpty (after_run (eventR e) (e :: q')) &&
              Qeq_bool (-1) (eventR e)); [discriminate|].
    intros H. injection H as <- <-.
    split; [exact (leading_after_run (eventR e) (e :: q'))|].
    split.
    + intros _. cbn [leading_run]. rewrite Qeq_bool_refl. discriminate.
    + intros r Hr. cbn in Hr. injection Hr as <-. split.
      * exact (leading_run_same_r (eventR e) (e :: q')).
      * exact (after_run_head (eventR e) (e :: q')).
Qed.

Lemma pairwise_after_run (ok : Event -> Event -> bool) (r : Q) (q : deque) :
  pairwise ok q = true -> pairwise ok (after_run r q) = true.
Proof.
  induction q as [|e rest IH]; intros Hq; cbn [after_run]; [reflexivity|].
  destruct (Qeq_bool (eventR e) r); [|exact Hq].
  cbn [pairwise] in Hq. apply andb_prop in Hq. apply IH. apply Hq.
Qed.

(** X11.  On a queue sorted by real time, [timeAdvance] is the least
    real time in the queue, and after [getNextEvents] every entry left
    is strictly later than that time and the queue left is sorted: the
    next step is at a later time unless something is scheduled in
    between. *)
Theorem getNextEvents_sorted_advances (q events rest : deque) (r : Q) :
  sorted_by_r q = true ->
  timeAdvance q = Ok r ->
  getNextEvents q = Ok (events, rest) ->
  Forall (fun e => (r <= eventR e)%Q) q
  /\ Forall (fun e => (r < eventR e)%Q) rest
  /\ sorted_by_r rest = true.
Proof.
  intros Hsorted Hr Hnext. rewrite getNextEvents_run in Hnext.
  destruct q as [|e q']; [discriminate|].
  cbn in Hr. injection Hr as <-.
  pose proof (pairwise_after_run _ (eventR e) (e :: q') Hsorted) as Hrest.
  fold sorted_by_r in Hrest.
  pose proof (after_run_head (eventR e) (e :: q')) as Hhead.
  pose proof (leading_after_run (eventR e) (e :: q')) as Hsplit.
  remember (after_run (eventR e) (e :: q')) as left eqn:Hleft.
  remember (leading_run (eventR e) (e :: q')) as out eqn:Hout.
  destruct (isEmpty left && Qeq_bool (-1) (eventR e)); [discriminate|].
  injection Hnext as <- <-. clear Hleft Hout.
  assert (Hall : Forall (fun x => (eventR e <= eventR x)%Q) (e :: q')).
  { unfold sorted_by_r in Hsorted. cbn [pairwise] in Hsorted.
    apply andb_prop in Hsorted. destruct Hsorted as [He _].
    constructor; [lra|]. apply Forall_forall. intros x Hx.
    rewrite forallb_forall in He. apply Qle_bool_iff. exact (He x Hx). }
  split; [exact Hall|]. split; [|exact Hrest].
  destruct left as [|x rest']; [constructor|].
  assert (Hx : (eventR e < eventR x)%Q).
  { assert (Hin : In x (e :: q')).
    { rewrite <- Hsplit. apply in_or_app. right. left. reflexivity. }
    rewrite Forall_forall in Hall. specialize (Hall x Hin).
    destruct (Qlt_le_dec (eventR e) (eventR x)) as [Hlt|Hge]; [exact Hlt|].
    exfalso. apply Hhead. lra. }
  constructor; [exact Hx|].
  unfold sorted_by_r in Hrest. cbn [pairwise] in Hrest.
  apply andb_prop in Hrest. destruct Hrest as [Hle _].
  apply Forall_forall. intros y Hy.
  rewrite forallb_forall in Hle. specialize (Hle y Hy).
  apply Qle_bool_iff in Hle. cbn beta.
  apply Qlt_le_trans with (eventR x); assumption.
Qed.

Lemma getNextEvents_sorted_advances_witness :
  sorted_by_r [ExternalEvent "a" (mkTime 1 0) 1%N;
               InternalEvent EmptyString (mkTime 1 1) 2%N;
               ExternalEvent "b" (mkTime 3 0) 1%N] = true
  /\ (Forall (fun e => (1 <= eventR e)%Q)
        [ExternalEvent "a" (mkTime 1 0) 1%N;
         InternalEvent EmptyString (mkTime 1 1) 2%N;
         ExternalEvent "b" (mkTime 3 0) 1%N]
      /\ Forall (fun e => (1 < eventR e)%Q) [ExternalEvent "b" (mkTime 3 0) 1%N]
      /\ sorted_by_r [ExternalEvent "b" (mkTime 3 0) 1%N] = true).
Proof.
  split; [reflexivity|].
  apply (getNextEvents_sorted_advances
           [ExternalEvent "a" (mkTime 1 0) 1%N;
            InternalEvent EmptyString (mkTime 1 1) 2%N;
            ExternalEvent "b" (mkTime 3 0) 1%N]
           [ExternalEvent "a" (mkTime 1 0) 1%N;
            InternalEvent EmptyString (mkTime 1 1) 2%N]
           [ExternalEvent "b" (mkTime 3 0) 1%N] 1);
    vm_compute; reflexivity.
Defined.

(** ** The order on times *)

(** What [Time::compareTo] returns, by the order of the real times. *)
Lemma Time_compareTo_cases (a b : Time) (sa sb : bool) :
  ((getR a < getR b)%Q -> Time_compareTo a b sa sb = (-1)%Z)
  /\ ((getR b < getR a)%Q -> Time_compareTo a b sa sb = 1%Z)
  /\ ((getR a == getR b)%Q -> zeros_agree a b sa sb ->
      Time_compareTo a b sa sb = (getC a - getC b)%Z)
  /\ ((getR a == 0)%Q -> (getR b == 0)%Q -> sa = true -> sb = false ->
      Time_compareTo a b sa sb = (-1)%Z).
Proof.
  unfold Time_compareTo, signbit_of_difference, zeros_agree.
  destruct a as [ra ca], b as [rb cb]. cbn [getR getC].
  repeat split.
  - intros H. destruct (Qgtb_spec rb ra); [reflexivity|lra].
  - intros H. destruct (Qgtb_spec rb ra); [lra|]. cbn [orb].
    destruct (Qeqb_spec ra rb); [lra|].
    destruct (Qeqb_spec ra 0); [|reflexivity].
    destruct (Qeqb_spec rb 0); [lra|reflexivity].
  - intros H Hz. destruct (Qgtb_spec rb ra); [lra|]. cbn [orb].
    destruct (Qeqb_spec ra rb); [|contradiction].
    destruct (Qeqb_spec ra 0) as [Ha|_]; [|reflexivity].
    destruct (Qeqb_spec rb 0) as [Hb|_]; [|reflexivity].
    rewrite (Hz Ha Hb). destruct sb; reflexivity.
  - intros Ha Hb -> ->. destruct (Qgtb_spec rb ra); [reflexivity|].
    destruct (Qeqb_spec ra 0); [|contradiction].
    destruct (Qeqb_spec rb 0); [|contradiction]. reflexivity.
Qed.

Lemma zeros_agree_sym (a b : Time) (sa sb : bool) :
  zeros_agree a b sa sb -> zeros_agree b a sb sa.
Proof. unfold zeros_agree. intros H Hb Ha. symmetry. exact (H Ha Hb). Qed.

(** X12.  [Time::compareTo] on times whose counters are in the range
    the queue uses.  A result of 0 means the times are equal by
    [Time::operator==].  On two times that are not zeros of opposite
    sign the converse holds and the sign of the result flips when the
    arguments are swapped; on three times of which no two neighbours
    are zeros of opposite sign the comparison is transitive.  For
    [this->r = -0.0] and [other.r = +0.0] the sign bit of the
    difference is set: the result is -1 whatever the counters are, also
    when [operator==] holds, and the swapped comparison returns the
    difference of the counters. *)
Theorem Time_compareTo_order (a b c : Time) (sa sb sc : bool) :
  counter_in_range a -> counter_in_range b -> counter_in_range c ->
  (Time_compareTo a b sa sb = 0%Z -> Time_eqb a b = true)
  /\ (zeros_agree a b sa sb ->
      (Time_eqb a b = true -> Time_compareTo a b sa sb = 0%Z)
      /\ Z.sgn (Time_compareTo b a sb sa) =
         (- Z.sgn (Time_compareTo a b sa sb))%Z)
  /\ (zeros_agree a b sa sb -> zeros_agree b c sb sc ->
      (Time_compareTo a b sa sb <= 0)%Z -> (Time_compareTo b c sb sc <= 0)%Z ->
      (Time_compareTo a c sa sc <= 0)%Z)
  /\ ((getR a == 0)%Q -> (getR b == 0)%Q -> sa = true -> sb = false ->
      Time_compareTo a b sa sb = (-1)%Z
      /\ Time_compareTo b a sb sa = (getC b - getC a)%Z
      /\ (getC a = getC b -> Time_eqb a b = true)).
Proof.
  unfold counter_in_range. intros Ha Hb Hc.
  split; [|split; [|split]].
  - destruct (Time_compareTo_cases a b sa sb) as (Hlt & Hgt & Heq & Hneg).
    unfold Time_eqb. intros H0.
    destruct (Qeqb_spec (getR a) (getR b)) as [Hr|Hr]; cbn [andb].
    + apply Z.eqb_eq. revert H0.
      unfold Time_compareTo.
      destruct (signbit_of_difference (getR a) (getR b) sa sb);
        [discriminate|].
      destruct (Qeqb_spec (getR a) (getR b)); [|contradiction].
      cbn [Z.eqb]. lia.
    + destruct (Q_dec (getR a) (getR b)) as [[Hl|Hg]|He]; [| |contradiction].
      * rewrite (Hlt Hl) in H0. discriminate H0.
      * rewrite (Hgt Hg) in H0. discriminate H0.
  - intros Hz. pose proof (zeros_agree_sym _ _ _ _ Hz) as Hz'.
    destruct (Time_compareTo_cases a b sa sb) as (Hlt & Hgt & Heq & _).
    destruct (Time_compareTo_cases b a sb sa) as (Hlt' & Hgt' & Heq' & _).
    split.
    + unfold Time_eqb. intros He. apply andb_prop in He.
      destruct He as [Hr Hcc]. apply Qeq_bool_iff in Hr.
      apply Z.eqb_eq in Hcc. rewrite (Heq Hr Hz). lia.
    + destruct (Q_dec (getR a) (getR b)) as [[Hl|Hg]|He].
      * rewrite (Hlt Hl), (Hgt' Hl). reflexivity.
      * rewrite (Hgt Hg), (Hlt' Hg). reflexivity.
      * rewrite (Heq He Hz), (Heq' (Qeq_sym _ _ He) Hz').
        destruct (Z.compare_spec (getC a) (getC b)) as [E|E|E].
        -- rewrite E, Z.sub_diag. reflexivity.
        -- rewrite (Z.sgn_pos (getC b - getC a)), (Z.sgn_neg (getC a - getC b));
             lia.
        -- rewrite (Z.sgn_neg (getC b - getC a)), (Z.sgn_pos (getC a - getC b));
             lia.
  - intros Hab Hbc.
    destruct (Time_compareTo_cases a b sa sb) as (_ & Hgt1 & Heq1 & _).
    destruct (Time_compareTo_cases b c sb sc) as (_ & Hgt2 & Heq2 & _).
    destruct (Time_compareTo_cases a c sa sc) as (Hlt3 & _ & Heq3 & _).
    intros H1 H2.
    assert (Hr1 : (getR a <= getR b)%Q).
    { apply Qnot_lt_le. intros Hg. rewrite (Hgt1 Hg) in H1. lia. }
    assert (Hr2 : (getR b <= getR c)%Q).
    { apply Qnot_lt_le. intros Hg. rewrite (Hgt2 Hg) in H2. lia. }
    destruct (Q_dec (getR a) (getR c)) as [[Hl|Hg]|He].
    + rewrite (Hlt3 Hl). lia.
    + exfalso. lra.
    + assert (E1 : (getR a == getR b)%Q) by lra.
      assert (E2 : (getR b == getR c)%Q) by lra.
      rewrite (Heq1 E1 Hab) in H1. rewrite (Heq2 E2 Hbc) in H2.
      rewrite Heq3; [lia|exact He|].
      intros Za Zc.
      assert (Zb : (getR b == 0)%Q) by lra.
      rewrite (Hab Za Zb). exact (Hbc Zb Zc).
  - intros Za Zb Hsa Hsb.
    destruct (Time_compareTo_cases a b sa sb) as (_ & _ & _ & Hneg).
    destruct (Time_compareTo_cases b a sb sa) as (_ & _ & Heq' & _).
    split; [exact (Hneg Za Zb Hsa Hsb)|]. split.
    + unfold Time_compareTo, signbit_of_difference. subst sa sb.
      destruct (Qgtb_spec (getR a) (getR b)); [lra|].
      rewrite !andb_false_r. cbn [orb].
      destruct (Qeqb_spec (getR b) (getR a)); [reflexivity|lra].
    + intros Hcc. unfold Time_eqb. rewrite Hcc, Z.eqb_refl.
      destruct (Qeqb_spec (getR a) (getR b)); [reflexivity|lra].
Qed.

(** ** The scheduling theorems on [example_queue] *)

(** Close a goal that compares two given real times. *)
Ltac q_decide :=
  match goal with
  | |- ~ _ => let H := fresh in intro H; vm_compute in H; discriminate H
  | |- _ /\ _ => split; q_decide
  | |- _ => vm_compute; (reflexivity || congruence)
  end.

Lemma schedule_fresh_time_inserts_witness :
  exists pre post,
    example_queue = pre ++ post
    /\ schedule (CallScheduleInternal 2 3%N) example_queue =
         Ok (pre ++ call_event (CallScheduleInternal 2 3%N) :: post)
    /\ eventC (call_event (CallScheduleInternal 2 3%N)) = 0%Z
    /\ Forall (fun e => (eventR e < call_r (CallScheduleInternal 2 3%N))%Q) pre
    /\ match post with
       | [] => True
       | e :: _ => (call_r (CallScheduleInternal 2 3%N) < eventR e)%Q
       end.
Proof.
  apply (schedule_fresh_time_inserts (CallScheduleInternal 2 3%N) example_queue).
  repeat constructor; q_decide.
Defined.

Lemma schedule_fresh_time_keeps_invariant_witness :
  exists q',
    schedule (CallScheduleExternal "c" 2 3%N) example_queue = Ok q'
    /\ queue_invariant q' = true.
Proof.
  apply (schedule_fresh_time_keeps_invariant
           (CallScheduleExternal "c" 2 3%N) example_queue).
  - vm_compute. reflexivity.
  - repeat constructor; q_decide.
Defined.

Lemma scheduleInternalEvent_at_own_entry_witness :
  scheduleInternalEvent 1 1%N
    ([] ++ ExternalEvent "a" (mkTime 1 0) 1%N ::
       [ExternalEvent "b" (mkTime 1 1) 2%N;
        InternalEvent EmptyString (mkTime 3 0) 1%N;
        InternalEvent EmptyString (mkTime 4 0) 2%N]) =
    if (getType (ExternalEvent "a" (mkTime 1 0) 1%N) =? "external")%string
    then Ok ([] ++
             ConfluentEvent (getInput (ExternalEvent "a" (mkTime 1 0) 1%N))
               (mkTime 1 (eventC (ExternalEvent "a" (mkTime 1 0) 1%N))) 1%N ::
             [ExternalEvent "b" (mkTime 1 1) 2%N;
              InternalEvent EmptyString (mkTime 3 0) 1%N;
              InternalEvent EmptyString (mkTime 4 0) 2%N])
    else Ok ([] ++ ExternalEvent "a" (mkTime 1 0) 1%N ::
             [ExternalEvent "b" (mkTime 1 1) 2%N;
              InternalEvent EmptyString (mkTime 3 0) 1%N;
              InternalEvent EmptyString (mkTime 4 0) 2%N]).
Proof.
  apply (scheduleInternalEvent_at_own_entry 1 1%N []
           [ExternalEvent "b" (mkTime 1 1) 2%N;
            InternalEvent EmptyString (mkTime 3 0) 1%N;
            InternalEvent EmptyString (mkTime 4 0) 2%N]
           (ExternalEvent "a" (mkTime 1 0) 1%N)).
  - constructor.
  - q_decide.
  - reflexivity.
Defined.

Lemma scheduleExternalEvent_at_own_internal_witness :
  scheduleExternalEvent "c" 3 1%N
    ([ExternalEvent "a" (mkTime 1 0) 1%N; ExternalEvent "b" (mkTime 1 1) 2%N] ++
     InternalEvent EmptyString (mkTime 3 0) 1%N ::
     [InternalEvent EmptyString (mkTime 4 0) 2%N]) =
    Ok ([ExternalEvent "a" (mkTime 1 0) 1%N;
         ExternalEvent "b" (mkTime 1 1) 2%N] ++
        ConfluentEvent "c"
          (mkTime 3 (eventC (InternalEvent EmptyString (mkTime 3 0) 1%N))) 1%N ::
        [InternalEvent EmptyString (mkTime 4 0) 2%N]).
Proof.
  apply (scheduleExternalEvent_at_own_internal "c" 3 1%N
           [ExternalEvent "a" (mkTime 1 0) 1%N;
            ExternalEvent "b" (mkTime 1 1) 2%N]
           [InternalEvent EmptyString (mkTime 4 0) 2%N]
           (InternalEvent EmptyString (mkTime 3 0) 1%N)).
  - repeat constructor; q_decide.
  - q_decide.
  - reflexivity.
  - reflexivity.
Defined.

Lemma fresh_confluence_either_order_witness :
  schedule_all [CallScheduleExternal "c" 2 3%N; CallScheduleInternal 2 3%N]
    example_queue =
    Ok (insert_by_r (ConfluentEvent "c" (mkTime 2 0) 3%N) example_queue)
  /\ schedule_all [CallScheduleInternal 2 3%N; CallScheduleExternal "c" 2 3%N]
       example_queue =
       Ok (insert_by_r (ConfluentEvent "c" (mkTime 2 0) 3%N) example_queue).
Proof.
  apply (fresh_confluence_either_order "c" 2 3%N example_queue).
  repeat constructor; q_decide.
Defined.

Lemma fresh_internal_twice_witness :
  schedule_all [CallScheduleInternal 2 3%N; CallScheduleInternal 2 3%N]
    example_queue =
    schedule_all [CallScheduleInternal 2 3%N] example_queue.
Proof.
  apply (fresh_internal_twice 2 3%N example_queue).
  repeat constructor; q_decide.
Defined.

Lemma scheduleExternalEvent_behind_run_witness :
  scheduleExternalEvent "c" 1 1%N
    ([] ++ ExternalEvent "a" (mkTime 1 0) 1%N ::
     [ExternalEvent "b" (mkTime 1 1) 2%N] ++
     InternalEvent EmptyString (mkTime 3 0) 1%N ::
     [InternalEvent EmptyString (mkTime 4 0) 2%N]) =
    Ok ([] ++ ExternalEvent "a" (mkTime 1 0) 1%N ::
        [ExternalEvent "b" (mkTime 1 1) 2%N] ++
        ExternalEvent "c"
          (mkTime 1
             (eventC (last_of (ExternalEvent "a" (mkTime 1 0) 1%N)
                        [ExternalEvent "b" (mkTime 1 1) 2%N]) + 1)) 1%N
        :: InternalEvent EmptyString (mkTime 3 0) 1%N ::
        [InternalEvent EmptyString (mkTime 4 0) 2%N]).
Proof.
  apply (scheduleExternalEvent_behind_run "c" 1 1%N []
           [ExternalEvent "b" (mkTime 1 1) 2%N]
           [InternalEvent EmptyString (mkTime 4 0) 2%N]
           (ExternalEvent "a" (mkTime 1 0) 1%N)
           (InternalEvent EmptyString (mkTime 3 0) 1%N)).
  - constructor.
  - q_decide.
  - discriminate.
  - repeat constructor; (q_decide || discriminate).
  - q_decide.
Defined.

Lemma scheduleInternalEvent_behind_run_witness :
  scheduleInternalEvent 1 3%N
    ([] ++ ExternalEvent "a" (mkTime 1 0) 1%N ::
     [ExternalEvent "b" (mkTime 1 1) 2%N] ++
     InternalEvent EmptyString (mkTime 3 0) 1%N ::
     InternalEvent EmptyString (mkTime 4 0) 2%N :: []) =
    Ok ([] ++ ExternalEvent "a" (mkTime 1 0) 1%N ::
        [ExternalEvent "b" (mkTime 1 1) 2%N] ++
        InternalEvent EmptyString
          (mkTime 1
             (eventC (last_of (ExternalEvent "a" (mkTime 1 0) 1%N)
                        [ExternalEvent "b" (mkTime 1 1) 2%N]) + 1)) 3%N
        :: InternalEvent EmptyString (mkTime 3 0) 1%N ::
        InternalEvent EmptyString (mkTime 4 0) 2%N :: []).
Proof.
  apply (scheduleInternalEvent_behind_run 1 3%N []
           [ExternalEvent "b" (mkTime 1 1) 2%N] []
           (ExternalEvent "a" (mkTime 1 0) 1%N)
           (InternalEvent EmptyString (mkTime 3 0) 1%N)
           (InternalEvent EmptyString (mkTime 4 0) 2%N)).
  - constructor.
  - q_decide.
  - discriminate.
  - repeat constructor; (q_decide || discriminate).
  - q_decide.
Defined.

Lemma getNextEvents_splits_queue_witness :
  [ExternalEvent "a" (mkTime 1 0) 1%N; ExternalEvent "b" (mkTime 1 1) 2%N] ++
  [InternalEvent EmptyString (mkTime 3 0) 1%N;
   InternalEvent EmptyString (mkTime 4 0) 2%N] = example_queue
  /\ (example_queue <> [] ->
      [ExternalEvent "a" (mkTime 1 0) 1%N;
       ExternalEvent "b" (mkTime 1 1) 2%N] <> [])
  /\ (forall r, timeAdvance example_queue = Ok r ->
        Forall (fun e => (eventR e == r)%Q)
          [ExternalEvent "a" (mkTime 1 0) 1%N;
           ExternalEvent "b" (mkTime 1 1) 2%N]
        /\ match [InternalEvent EmptyString (mkTime 3 0) 1%N;
                  InternalEvent EmptyString (mkTime 4 0) 2%N] with
           | [] => True
           | e :: _ => ~ (eventR e == r)%Q
           end).
Proof.
  apply (getNextEvents_splits_queue example_queue
           [ExternalEvent "a" (mkTime 1 0) 1%N;
            ExternalEvent "b" (mkTime 1 1) 2%N]
           [InternalEvent EmptyString (mkTime 3 0) 1%N;
            InternalEvent EmptyString (mkTime 4 0) 2%N]).
  vm_compute. reflexivity.
Defined.

Lemma Time_compareTo_order_witness :
  (counter_in_range (mkTime 0 0) /\ counter_in_range (mkTime 0 1)
   /\ counter_in_range (mkTime (3 # 2) 0))
  /\ (Time_compareTo (mkTime 0 0) (mkTime 0 1) false false <= 0)%Z
  /\ (Time_compareTo (mkTime 0 1) (mkTime (3 # 2) 0) false false <= 0)%Z
  /\ (Time_compareTo (mkTime 0 0) (mkTime (3 # 2) 0) false false <= 0)%Z
  /\ Z.sgn (Time_compareTo (mkTime 0 1) (mkTime 0 0) false false) =
     (- Z.sgn (Time_compareTo (mkTime 0 0) (mkTime 0 1) false false))%Z
  /\ Time_compareTo (mkTime 0 3) (mkTime 0 3) true false = (-1)%Z
  /\ Time_compareTo (mkTime 0 3) (mkTime 0 3) false true = 0%Z
  /\ Time_eqb (mkTime 0 3) (mkTime 0 3) = true.
Proof.
  assert (R : forall c, (0 <= c <= 3)%Z -> counter_in_range (mkTime 0 c)).
  { intros c Hc. unfold counter_in_range, INT_MAX. cbn [getC]. lia. }
  assert (R' : counter_in_range (mkTime (3 # 2) 0)).
  { unfold counter_in_range, INT_MAX. cbn [getC]. lia. }
  assert (Z : forall (x y : Time) (sx : bool),
            zeros_agree x y sx sx) by (intros x y sx _ _; reflexivity).
  split; [repeat split; try apply R; try exact R'; cbn; lia|].
  destruct (Time_compareTo_order (mkTime 0 0) (mkTime 0 1) (mkTime (3 # 2) 0)
              false false false (R 0%Z ltac:(lia)) (R 1%Z ltac:(lia)) R')
    as (_ & Hflip & Htrans & _).
  destruct (Time_compareTo_order (mkTime 0 3) (mkTime 0 3) (mkTime 0 3)
              true false false (R 3%Z ltac:(lia)) (R 3%Z ltac:(lia))
              (R 3%Z ltac:(lia)))
    as (_ & _ & _ & Hneg).
  destruct (Hneg ltac:(reflexivity) ltac:(reflexivity) eq_refl eq_refl)
    as (Hminus & Hswap & Heq).
  destruct (Hflip (Z _ _ _)) as [_ Hsgn].
  assert (H1 : (Time_compareTo (mkTime 0 0) (mkTime 0 1) false false <= 0)%Z)
    by (vm_compute; discriminate).
  assert (H2 : (Time_compareTo (mkTime 0 1) (mkTime (3 # 2) 0) false false
                <= 0)%Z)
    by (vm_compute; discriminate).
  exact (conj H1 (conj H2 (conj (Htrans (Z _ _ _) (Z _ _ _) H1 H2)
           (conj Hsgn (conj Hminus (conj Hswap (Heq eq_refl))))))).
Defined.

(** ** The maps of the simulator *)

Lemma map_assign_N_above {V : Type} (a k : ptr) (v : V) (m : list (ptr * V)) :
  (a < k)%N -> Forall (N.lt a) (List.map fst m) ->
  Forall (N.lt a) (List.map fst (map_assign N.ltb k v m)).
Proof.
  intros Hk. induction m as [|[b w] rest IH]; intros Hm;
    cbn [map_assign List.map fst].
  - constructor; [exact Hk|constructor].
  - cbn [List.map fst] in Hm.
    pose proof (Forall_inv Hm) as Hb. apply Forall_inv_tail in Hm.
    destruct (N.ltb_spec k b); [|destruct (N.ltb_spec b k)];
      cbn [List.map fst]; repeat constructor; auto.
Qed.

Lemma map_assign_N_ascending {V : Type} (k : ptr) (v : V) (m : list (ptr * V)) :
  ascending_keys m -> ascending_keys (map_assign N.ltb k v m).
Proof.
  unfold ascending_keys.
  induction m as [|[b w] rest IH]; intros Hm; cbn [map_assign List.map fst].
  - repeat constructor.
  - cbn [List.map fst] in Hm. apply StronglySorted_inv in Hm.
    destruct Hm as [Hrest Hb].
    destruct (N.ltb_spec k b); [|destruct (N.ltb_spec b k)];
      cbn [List.map fst].
    + constructor; [constructor; assumption|].
      constructor; [assumption|].
      eapply Forall_impl; [|exact Hb]. intros x Hx. lia.
    + constructor; [apply IH; exact Hrest|].
      apply map_assign_N_above; assumption.
    + constructor; assumption.
Qed.

(** X13.  The coupling table keeps one destination per source, the last
    one given.  After [addCoupling(m1, m2)] the destination read for
    [m1] is [m2] and every other source reads what it read before;
    [routeInputTo(m)] does the same for the source [nullptr] and
    [takeOutputFrom(m)] makes [m] read [nullptr], so either of them
    replaces a coupling given earlier for that source. *)
Theorem coupling_last_call_wins (s : Simulator) (m1 m2 m k : ptr) :
  destination (couplings (Sim.addCoupling m1 m2 s)) k =
    (if (k =? m1)%N then m2 else destination (couplings s) k)
  /\ destination (couplings (Sim.routeInputTo m s)) k =
       (if (k =? nullptr)%N then m else destination (couplings s) k)
  /\ destination (couplings (Sim.takeOutputFrom m s)) k =
       (if (k =? m)%N then nullptr else destination (couplings s) k).
Proof.
  unfold destination, Sim.addCoupling, Sim.routeInputTo, Sim.takeOutputFrom,
    Sim.set_couplings. cbn [couplings].
  rewrite !map_find_assign_N.
  repeat split;
    match goal with
    | |- context [(?a =? ?b)%N] => destruct (a =? b)%N; reflexivity
    end.
Qed.

(** X14.  [addModel(m)] registers [m] with an empty recorded output,
    also when [m] was registered before, and changes the record of no
    other model; the coupling table, the input schedule and the queue
    stay as they are. *)
Theorem addModel_registers (s : Simulator) (m k : ptr) :
  map_find N.ltb k (models (Sim.addModel m s)) =
    (if (k =? m)%N then Some EmptyString else map_find N.ltb k (models s))
  /\ couplings (Sim.addModel m s) = couplings s
  /\ inputs (Sim.addModel m s) = inputs s
  /\ queue (Sim.addModel m s) = queue s.
Proof.
  unfold Sim.addModel, Sim.set_models. cbn [models couplings inputs queue].
  rewrite map_find_assign_N. repeat split.
Qed.

Lemma configure_one_keeps (c : ConfigCall) (s : Simulator) :
  ascending_keys (models s) -> ascending_keys (couplings s) ->
  StronglySorted key_lt (inputs s) -> queue s = [] ->
  ascending_keys (models (configure_one c s))
  /\ ascending_keys (couplings (configure_one c s))
  /\ StronglySorted key_lt (inputs (configure_one c s))
  /\ queue (configure_one c s) = [].
Proof.
  intros Hm Hc Hi Hq.
  destruct c; cbn [configure_one Sim.addModel Sim.addCoupling Sim.routeInputTo
                   Sim.takeOutputFrom Sim.addInput Sim.set_models
                   Sim.set_couplings models couplings inputs queue];
    repeat split; try assumption;
    try (apply map_assign_N_ascending; assumption).
  apply map_assign_Q_sorted. exact Hi.
Qed.

(** X15.  Whatever configuration calls are made on a new simulator, its
    three maps list each key once, in strictly ascending order (models
    and couplings by address, inputs by time), and its queue stays
    empty: the loops over the maps visit every registered model and
    every scheduled input once, lowest key first. *)
Theorem configure_keeps_maps_ascending (cs : list ConfigCall) :
  ascending_keys (models (configure cs Sim.new))
  /\ ascending_keys (couplings (configure cs Sim.new))
  /\ StronglySorted key_lt (inputs (configure cs Sim.new))
  /\ queue (configure cs Sim.new) = [].
Proof.
  unfold configure.
  assert (H : forall s,
    ascending_keys (models s) -> ascending_keys (couplings s) ->
    StronglySorted key_lt (inputs s) -> queue s = [] ->
    ascending_keys (models (fold_left (fun s c => configure_one c s) cs s))
    /\ ascending_keys
         (couplings (fold_left (fun s c => configure_one c s) cs s))
    /\ StronglySorted key_lt
         (inputs (fold_left (fun s c => configure_one c s) cs s))
    /\ queue (fold_left (fun s c => configure_one c s) cs s) = []).
  { induction cs as [|c rest IH]; intros s Hm Hc Hi Hq; cbn [fold_left].
    - auto.
    - destruct (configure_one_keeps c s Hm Hc Hi Hq) as (Hm' & Hc' & Hi' & Hq').
      apply IH; assumption. }
  apply H; try constructor.
Qed.

(** ** Steps and runs of the simulator *)

Lemma routeOutputs_no_output (r : Q) (ms : list (ptr * string)) :
  forall cs q sb,
    Forall (fun model => snd model = EmptyString) ms ->
    Sim.routeOutputs r ms cs q sb = Ok (cs, q, sb).
Proof.
  induction ms as [|model rest IH]; intros cs q sb Hms;
    cbn [Sim.routeOutputs]; [reflexivity|].
  pose proof (Forall_inv Hms) as Hm. apply Forall_inv_tail in Hms.
  rewrite Hm. cbn [String.eqb negb]. apply IH. exact Hms.
Qed.

Lemma clearOutputs_no_output (s : Simulator) :
  Forall (fun model => snd model = EmptyString) (models (Sim.clearOutputs s)).
Proof.
  unfold Sim.clearOutputs, Sim.set_models. cbn [models].
  induction (models s) as [|model rest IH]; cbn [List.map]; constructor;
    [reflexivity|exact IH].
Qed.

Lemma collectOutputs_external_only (events : deque) :
  forall ms mem,
    Forall (fun e => getType e = "external") events ->
    Sim.collectOutputs events ms mem = Ok (ms, mem).
Proof.
  induction events as [|e rest IH]; intros ms mem Hev;
    cbn [Sim.collectOutputs]; [reflexivity|].
  pose proof (Forall_inv Hev) as He. apply Forall_inv_tail in Hev.
  rewrite He. cbn [String.eqb Ascii.eqb Bool.eqb negb]. apply IH. exact Hev.
Qed.

(** X16.  A step whose imminent events are all external is only their
    transitions: no [lambda] is called, nothing is written to the trace,
    routing schedules nothing and leaves the coupling table as it is,
    and every recorded output is empty afterwards. *)
Theorem step_external_only (s s' : Simulator) (mem mem' : Memory)
    (sb sb' : Trace) (events rest : deque) :
  getNextEvents (queue s) = Ok (events, rest) ->
  Forall (fun e => getType e = "external") events ->
  Sim.step s mem sb = Ok (s', mem', sb') ->
  sb' = sb
  /\ couplings s' = couplings s
  /\ Forall (fun model => snd model = EmptyString) (models s')
  /\ Sim.applyTransitions events rest mem = Ok (queue s', mem')
  /\ existsb is_lambda_call (transition_calls events) = false.
Proof.
  intros Hnext Hev Hstep. unfold Sim.step in Hstep.
  destruct (timeAdvance (queue s)) as [r|]; cbn [bind] in Hstep;
    [|discriminate].
  rewrite Hnext in Hstep. cbn [bind] in Hstep.
  rewrite collectOutputs_external_only in Hstep by exact Hev.
  cbn [bind] in Hstep.
  rewrite routeOutputs_no_output in Hstep by apply clearOutputs_no_output.
  cbn [bind] in Hstep.
  change (queue (Sim.clearOutputs (Sim.set_queue rest s))) with rest in Hstep.
  destruct (Sim.applyTransitions events rest mem) as [[q2 mem2]|];
    cbn [bind] in Hstep; [|discriminate].
  injection Hstep as <- <- <-. cbn [couplings models queue].
  split; [reflexivity|]. split; [reflexivity|].
  split; [apply clearOutputs_no_output|]. split; [reflexivity|].
  clear. induction events as [|e ev IH]; [reflexivity|].
  cbn [transition_calls flat_map]. rewrite !existsb_app.
  fold (transition_calls ev). rewrite IH. unfold delta_call.
  destruct (getType e =? "internal")%string; [reflexivity|].
  destruct (getType e =? "external")%string; [reflexivity|].
  destruct (getType e =? "confluent")%string; reflexivity.
Qed.

(** X17.  With an empty input schedule [simulate] returns at once, for
    every step bound and every configuration: the trace is empty, no
    virtual call is made (the memory of the models, with its record of
    calls, is returned as it was), and the model map is as before.  The
    coupling table is read for [nullptr]: afterwards it has an entry
    for [nullptr], with the destination that was read, and every other
    key has the entry it had or none as before; no destination that is
    read afterwards changes. *)
Theorem simulate_empty_schedule (fuel : nat) (s : Simulator) (mem : Memory) :
  inputs s = [] -> queue s = [] ->
  exists s',
    Sim.simulate fuel s mem = Ok (s', mem, [])
    /\ models s' = models s
    /\ queue s' = []
    /\ (forall k, destination (couplings s') k = destination (couplings s) k)
    /\ (forall k,
          map_find N.ltb k (couplings s') =
            if (k =? nullptr)%N
            then Some (destination (couplings s) nullptr)
            else map_find N.ltb k (couplings s)).
Proof.
  intros Hin Hq. unfold Sim.simulate, Sim.scheduleEvents.
  rewrite Hin, Hq.
  pose proof (map_index_destination nullptr (couplings s)) as [_ Hk].
  pose proof (map_index_find nullptr (couplings s)) as Hf.
  destruct (map_index N.ltb nullptr nullptr (couplings s)) as [inputModel cs].
  cbn [snd] in Hk, Hf. cbn [Sim.scheduleEvents_for bind].
  eexists. split.
  - destruct fuel; reflexivity.
  - cbn [models queue couplings]. auto.
Qed.

Lemma simulate_empty_schedule_witness :
  exists s',
    Sim.simulate 0
      (Sim.takeOutputFrom 2%N (Sim.addCoupling 1%N 2%N (Sim.addModel 1%N Sim.new)))
      (mkMemory [] []) = Ok (s', mkMemory [] [], [])
    /\ models s' =
         models (Sim.takeOutputFrom 2%N
                   (Sim.addCoupling 1%N 2%N (Sim.addModel 1%N Sim.new)))
    /\ queue s' = []
    /\ (forall k,
          destination (couplings s') k =
          destination
            (couplings (Sim.takeOutputFrom 2%N
                          (Sim.addCoupling 1%N 2%N (Sim.addModel 1%N Sim.new))))
            k)
    /\ (forall k,
          map_find N.ltb k (couplings s') =
            if (k =? nullptr)%N
            then Some (destination
                         (couplings
                            (Sim.takeOutputFrom 2%N
                               (Sim.addCoupling 1%N 2%N
                                  (Sim.addModel 1%N Sim.new))))
                         nullptr)
            else map_find N.ltb k
                   (couplings
                      (Sim.takeOutputFrom 2%N
                         (Sim.addCoupling 1%N 2%N
                            (Sim.addModel 1%N Sim.new))))).
Proof.
  apply (simulate_empty_schedule 0
           (Sim.takeOutputFrom 2%N
              (Sim.addCoupling 1%N 2%N (Sim.addModel 1%N Sim.new)))
           (mkMemory [] [])); reflexivity.
Defined.

Lemma step_keeps_inputs (s s' : Simulator) (mem mem' : Memory) (sb sb' : Trace) :
  Sim.step s mem sb = Ok (s', mem', sb') -> inputs s' = inputs s.
Proof.
  unfold Sim.step. intros H.
  destruct (timeAdvance (queue s)); cbn [bind] in H; [|discriminate].
  destruct (getNextEvents (queue s)) as [[events rest]|]; cbn [bind] in H;
    [|discriminate].
  destruct (Sim.collectOutputs events _ mem) as [[ms mem1]|];
    cbn [bind] in H; [|discriminate].
  destruct (Sim.routeOutputs _ ms _ _ sb) as [[[cs q1] sb1]|];
    cbn [bind] in H; [|discriminate].
  destruct (Sim.applyTransitions events q1 mem1) as [[q2 mem2]|];
    cbn [bind] in H; [|discriminate].
  injection H as <- _ _. reflexivity.
Qed.

Lemma simulate_while_returns_empty (fuel : nat) :
  forall s mem sb s' mem' sb',
    Sim.simulate_while fuel s mem sb = Ok (s', mem', sb') ->
    queue s' = [] /\ inputs s' = inputs s.
Proof.
  induction fuel as [|fuel IH]; intros s mem sb s' mem' sb' H;
    cbn [Sim.simulate_while] in H.
  - destruct (queue s) eqn:Hq; cbn [isEmpty] in H; [|discriminate].
    injection H as <- _ _. auto.
  - destruct (queue s) eqn:Hq; cbn [isEmpty] in H.
    + injection H as <- _ _. auto.
    + destruct (Sim.step s mem sb) as [[[s1 mem1] sb1]|] eqn:Hs;
        cbn [bind] in H; [|discriminate].
      apply IH in H. destruct H as [H1 H2]. split; [exact H1|].
      rewrite H2. eapply step_keeps_inputs. exact Hs.
Qed.

(** X18.  [simulate] returns only with an empty queue, and it never
    removes an entry of the input schedule: a second run on the same
    simulator schedules the same inputs again. *)
Theorem simulate_returns_exhausted (fuel : nat) (s s' : Simulator)
    (mem mem' : Memory) (sb : Trace) :
  Sim.simulate fuel s mem = Ok (s', mem', sb) ->
  queue s' = [] /\ inputs s' = inputs s.
Proof.
  unfold Sim.simulate, Sim.scheduleEvents. intros H.
  destruct (map_index N.ltb nullptr nullptr (couplings s)) as [inputModel cs].
  destruct (Sim.scheduleEvents_for (inputs s) inputModel (queue s)) as [q|];
    cbn [bind] in H; [|discriminate].
  apply simulate_while_returns_empty in H. exact H.
Qed.

Lemma step_external_only_witness :
  match
    Sim.step
      (mkSimulator [ExternalEvent "1" (mkTime (3 # 2) 0) 1%N] []
         [(1%N, "1")] [(0%N, 1%N)])
      (mkMemory [(1%N, Press)] []) []
  with
  | Ok (s', mem', sb') =>
    sb' = []
    /\ couplings s' = [(0%N, 1%N)]
    /\ Forall (fun model => snd model = EmptyString) (models s')
    /\ Sim.applyTransitions [ExternalEvent "1" (mkTime (3 # 2) 0) 1%N] []
         (mkMemory [(1%N, Press)] []) = Ok (queue s', mem')
    /\ existsb is_lambda_call
         (transition_calls [ExternalEvent "1" (mkTime (3 # 2) 0) 1%N]) = false
  | Fault _ => False
  end.
Proof.
  destruct (Sim.step
              (mkSimulator [ExternalEvent "1" (mkTime (3 # 2) 0) 1%N] []
                 [(1%N, "1")] [(0%N, 1%N)])
              (mkMemory [(1%N, Press)] []) [])
    as [[[s' mem'] sb']|f] eqn:Hstep.
  - refine (step_external_only _ _ _ _ _ _
              [ExternalEvent "1" (mkTime (3 # 2) 0) 1%N] [] _ _ Hstep).
    + vm_compute. reflexivity.
    + repeat constructor.
  - apply (f_equal is_ok) in Hstep. vm_compute in Hstep. discriminate Hstep.
Defined.

Lemma simulate_returns_exhausted_witness :
  match Sim.simulate 2 no_exit_simulator (mkMemory [(1%N, Press)] []) with
  | Ok (s', _, _) => queue s' = [] /\ inputs s' = inputs no_exit_simulator
  | Fault _ => False
  end.
Proof.
  destruct (Sim.simulate 2 no_exit_simulator (mkMemory [(1%N, Press)] []))
    as [[[s' mem'] sb']|f] eqn:Hrun.
  - exact (simulate_returns_exhausted _ _ _ _ _ _ Hrun).
  - apply (f_equal is_ok) in Hrun. vm_compute in Hrun. discriminate Hrun.
Defined.

(** X19.  In a step that completes, the trace only grows: the records
    written before stay in place, and every record the step adds
    carries the real time [timeAdvance] gave for the step and an output
    that is not empty. *)
Theorem step_appends_trace (s s' : Simulator) (mem mem' : Memory)
    (sb sb' : Trace) (r : Q) :
  timeAdvance (queue s) = Ok r ->
  Sim.step s mem sb = Ok (s', mem', sb') ->
  exists outputs,
    sb' = sb ++ List.map (fun output => (r, output)) outputs
    /\ Forall (fun output => output <> EmptyString) outputs.
Proof.
  intros Hr Hstep. unfold Sim.step in Hstep. rewrite Hr in Hstep.
  cbn [bind] in Hstep.
  destruct (getNextEvents (queue s)) as [[events rest]|]; cbn [bind] in Hstep;
    [|discriminate].
  destruct (Sim.collectOutputs events _ mem) as [[ms mem1]|];
    cbn [bind] in Hstep; [|discriminate].
  destruct (Sim.routeOutputs r ms _ _ sb) as [[[cs q1] sb1]|] eqn:Hroute;
    cbn [bind] in Hstep; [|discriminate].
  destruct (Sim.applyTransitions events q1 mem1) as [[q2 mem2]|];
    cbn [bind] in Hstep; [|discriminate].
  injection Hstep as _ _ <-.
  apply routeOutputs_run in Hroute. destruct Hroute as (Hsb & _ & _).
  match type of Hsb with
  | _ = _ ++ List.map _ (exit_models ?c ms) =>
    exists (List.map snd (exit_models c ms))
  end.
  split.
  - rewrite Hsb, map_map. reflexivity.
  - apply Forall_forall. intros output Hin. apply in_map_iff in Hin.
    destruct Hin as (model & <- & Hin). unfold exit_models in Hin.
    apply filter_In in Hin. destruct Hin as [_ Hin].
    apply andb_prop in Hin. destruct Hin as [Hout _].
    unfold has_output in Hout. intros Hempty. rewrite Hempty in Hout.
    discriminate Hout.
Qed.

Lemma step_appends_trace_witness :
  match
    Sim.step
      (mkSimulator [InternalEvent EmptyString (mkTime (5 # 2) 0) 1%N] []
         [(1%N, EmptyString)] [(0%N, 1%N)])
      (mkMemory [(1%N, mkObject MachineClass (mkMachine 1 (Some (5 # 2)) 1))] [])
      [(1%Q, "0")]
  with
  | Ok (_, _, sb') =>
    exists outputs,
      sb' = [(1%Q, "0")] ++ List.map (fun output => (5 # 2, output)) outputs
      /\ Forall (fun output => output <> EmptyString) outputs
  | Fault _ => False
  end.
Proof.
  destruct (Sim.step
              (mkSimulator [InternalEvent EmptyString (mkTime (5 # 2) 0) 1%N] []
                 [(1%N, EmptyString)] [(0%N, 1%N)])
              (mkMemory
                 [(1%N, mkObject MachineClass (mkMachine 1 (Some (5 # 2)) 1))] [])
              [(1%Q, "0")])
    as [[[s' mem'] sb']|f] eqn:Hstep.
  - refine (step_appends_trace _ _ _ _ _ _ (5 # 2) _ Hstep).
    vm_compute. reflexivity.
  - apply (f_equal is_ok) in Hstep. vm_compute in Hstep. discriminate Hstep.
Defined.

(** ** A run whose inputs are addressed to the null model *)

Lemma deref_nullptr (objs : list (ptr * Object)) :
  deref objs nullptr = Fault NullDereference.
Proof. reflexivity. Qed.

Lemma getNextEvents_single_head (e : Event) (rest : deque) :
  match rest with
  | [] => ~ (-1 == eventR e)%Q
  | x :: _ => ~ (eventR x == eventR e)%Q
  end ->
  getNextEvents (e :: rest) = Ok ([e], rest).
Proof.
  intros Hrest. rewrite getNextEvents_run.
  cbn [leading_run after_run]. rewrite Qeq_bool_refl.
  destruct rest as [|x rest']; cbn [leading_run after_run isEmpty andb].
  - destruct (Qeqb_spec (-1) (eventR e)); [contradiction|reflexivity].
  - destruct (Qeqb_spec (eventR x) (eventR e)); [contradiction|reflexivity].
Qed.

Lemma step_null_model (s : Simulator) (mem : Memory) (sb : Trace)
    (e : Event) (rest : deque) :
  queue s = e :: rest ->
  getType e = "external" -> getModel e = nullptr ->
  match rest with
  | [] => ~ (-1 == eventR e)%Q
  | x :: _ => ~ (eventR x == eventR e)%Q
  end ->
  Sim.step s mem sb = Fault NullDereference.
Proof.
  intros Hq Ht Hm Hrest. unfold Sim.step. rewrite Hq.
  rewrite getNextEvents_single_head by exact Hrest.
  cbn [timeAdvance deque_at nth_error bind].
  rewrite collectOutputs_external_only by (repeat constructor; exact Ht).
  cbn [bind].
  rewrite routeOutputs_no_output by apply clearOutputs_no_output.
  cbn [bind Sim.applyTransitions]. unfold Sim.transition.
  rewrite Ht, Hm. cbn [String.eqb Ascii.eqb Bool.eqb].
  unfold call_deltaExt, call_transition. rewrite deref_nullptr. reflexivity.
Qed.

Lemma step_sentinel_only (s : Simulator) (mem : Memory) (sb : Trace)
    (e : Event) :
  queue s = [e] -> (-1 == eventR e)%Q ->
  Sim.step s mem sb = Fault OutOfBounds.
Proof.
  intros Hq Hr. unfold Sim.step. rewrite Hq, getNextEvents_run.
  cbn [timeAdvance deque_at nth_error bind leading_run after_run].
  rewrite Qeq_bool_refl. cbn [isEmpty andb].
  destruct (Qeqb_spec (-1) (eventR e)); [reflexivity|contradiction].
Qed.

(** X20.  With inputs scheduled and no entry point (the coupling table
    gives [nullptr] for [nullptr]) [simulate] never completes and
    returns no trace, for every step bound that allows one step: the
    run ends in its first step with the call of [deltaExt] through the
    null pointer.  The one exception is a schedule holding a single
    input at real time -1, where the run ends with the read of
    [getNextEvents] outside the queue. *)
Theorem simulate_without_entry_point (adds : list (string * Q))
    (ms : list (ptr * string)) (cs : list (ptr * ptr)) (mem : Memory)
    (fuel : nat) :
  adds <> [] -> destination cs nullptr = nullptr ->
  Sim.simulate (S fuel) (addInputs adds (mkSimulator [] [] ms cs)) mem =
    Fault (if only_sentinel_input
                (inputs (addInputs adds (mkSimulator [] [] ms cs)))
           then OutOfBounds else NullDereference).
Proof.
  intros Hadds Hnull.
  destruct (scheduleEvents_seeds adds ms cs) as (s1 & Hs1 & Hq).
  pose proof (addInputs_not_empty adds (mkSimulator [] [] ms cs) Hadds) as Hne.
  assert (Hsorted : StronglySorted key_lt
                      (inputs (addInputs adds (mkSimulator [] [] ms cs)))).
  { apply addInputs_sorted. constructor. }
  unfold Sim.simulate. rewrite Hs1. cbn [bind].
  destruct (inputs (addInputs adds (mkSimulator [] [] ms cs)))
    as [|[r1 p1] rest] eqn:Hins; [congruence|].
  cbn [List.map] in Hq. cbn [Sim.simulate_while]. rewrite Hq.
  cbn [isEmpty]. rewrite Hnull in Hq.
  apply StronglySorted_inv in Hsorted. destruct Hsorted as [_ Hfirst].
  destruct rest as [|[r2 p2] rest'].
  - cbn [only_sentinel_input List.map] in *.
    destruct (Qeqb_spec (-1) r1) as [Hs|Hs].
    + rewrite (step_sentinel_only s1 mem [] _ Hq Hs). reflexivity.
    + rewrite (step_null_model s1 mem [] _ _ Hq); try reflexivity.
      exact Hs.
  - cbn [only_sentinel_input List.map] in *.
    rewrite (step_null_model s1 mem [] _ _ Hq); try reflexivity.
    apply Forall_inv in Hfirst. unfold key_lt in Hfirst.
    cbn [fst seed_event ExternalEvent eventR getTime getR] in *.
    intros Heq. rewrite Heq in Hfirst. exact (Qlt_irrefl _ Hfirst).
Qed.

Lemma simulate_without_entry_point_witness :
  Sim.simulate 1
    (addInputs [("12", 3 # 2); ("2", 27 # 10)]
       (mkSimulator [] [] [(1%N, EmptyString)] [(1%N, 0%N)]))
    (mkMemory [(1%N, Press)] []) =
    Fault (if only_sentinel_input
                (inputs (addInputs [("12", 3 # 2); ("2", 27 # 10)]
                           (mkSimulator [] [] [(1%N, EmptyString)]
                              [(1%N, 0%N)])))
           then OutOfBounds else NullDereference).
Proof.
  apply (simulate_without_entry_point [("12", 3 # 2); ("2", 27 # 10)]
           [(1%N, EmptyString)] [(1%N, 0%N)] (mkMemory [(1%N, Press)] []) 0).
  - discriminate.
  - reflexivity.
Defined.

(** ** The example machine *)

(** X21.  A machine that holds no negative number of parts and has an
    internal event pending exactly when it holds a part stays so under
    its transitions: [deltaInt] and [deltaCon] on a machine that holds a
    part, [deltaExt] on any such machine, for payloads that
    [std::stoi] reads as a number that is not negative and that the
    count of parts can take without leaving the range of [int].
    [deltaInt] removes one part, [deltaExt] adds the number read,
    [deltaCon] adds it and removes one. *)
Theorem Machine_transitions_consistent (this : Machine) (input : string)
    (n : Z) (t : Q) :
  Machine_consistent this -> stoi input = Ok n -> (0 <= n)%Z ->
  (parts this + n <= INT_MAX)%Z ->
  (exists after,
     MachineImpl.deltaExt input t this = Ok after
     /\ parts after = (parts this + n)%Z /\ Machine_consistent after)
  /\ ((0 < parts this)%Z ->
      (exists after,
         MachineImpl.deltaInt t this = Ok after
         /\ parts after = (parts this - 1)%Z /\ Machine_consistent after)
      /\ (exists after,
            MachineImpl.deltaCon input t this = Ok after
            /\ parts after = (parts this + n - 1)%Z
            /\ Machine_consistent after)).
Proof.
  unfold Machine_consistent. intros [Hparts Hnext] Hstoi Hn _.
  unfold MachineImpl.deltaExt, MachineImpl.deltaCon, MachineImpl.deltaInt,
    MachineImpl.reschedule.
  rewrite Hstoi. cbn [bind].
  assert (Hidle : nextInternalEvent this = None -> parts this = 0%Z)
    by apply Hnext.
  split; [|intros Hp; split].
  - eexists. split; [reflexivity|].
    destruct (Z.eqb_spec (parts this + n) 0) as [H0|H0];
      [|destruct (Z.eqb_spec (parts this) 0) as [Ho|Ho];
        [destruct (Z.gtb_spec (parts this + n) 0) as [Hg|Hg]|]];
      cbn [andb parts nextInternalEvent];
      (split; [reflexivity|split; [lia|]]);
      split; intros Hx; try discriminate; try lia; try reflexivity.
    specialize (Hidle Hx). lia.
  - destruct (Z.gtb_spec (parts this - 1) 0) as [Hg|Hg];
      (eexists; split; [reflexivity|]);
      cbn [parts nextInternalEvent];
      (split; [reflexivity|split; [lia|]]);
      split; intros Hx; try discriminate; try lia; reflexivity.
  - eexists. split; [reflexivity|].
    destruct (Z.eqb_spec (parts this + (n - 1)) 0) as [H0|H0];
      [|destruct (Z.eqb_spec (parts this) 0) as [Ho|Ho];
        [destruct (Z.gtb_spec (parts this + (n - 1)) 0) as [Hg|Hg]|]];
      cbn [andb parts nextInternalEvent];
      (split; [lia|split; [lia|]]);
      split; intros Hx; try discriminate; try lia; try reflexivity.
    specialize (Hidle Hx). lia.
Qed.

Lemma Machine_transitions_consistent_witness :
  (exists after,
     MachineImpl.deltaExt "12" (3 # 2) (mkMachine 2 (Some (5 # 2)) 1) = Ok after
     /\ parts after = (parts (mkMachine 2 (Some (5 # 2)) 1) + 12)%Z
     /\ Machine_consistent after)
  /\ ((0 < parts (mkMachine 2 (Some (5 # 2)) 1))%Z ->
      (exists after,
         MachineImpl.deltaInt (3 # 2) (mkMachine 2 (Some (5 # 2)) 1) = Ok after
         /\ parts after = (parts (mkMachine 2 (Some (5 # 2)) 1) - 1)%Z
         /\ Machine_consistent after)
      /\ (exists after,
            MachineImpl.deltaCon "12" (3 # 2) (mkMachine 2 (Some (5 # 2)) 1)
              = Ok after
            /\ parts after = (parts (mkMachine 2 (Some (5 # 2)) 1) + 12 - 1)%Z
            /\ Machine_consistent after)).
Proof.
  apply (Machine_transitions_consistent (mkMachine 2 (Some (5 # 2)) 1) "12" 12
           (3 # 2)).
  - unfold Machine_consistent. cbn [parts nextInternalEvent].
    split; [lia|]. split; intros H; discriminate H.
  - vm_compute. reflexivity.
  - lia.
  - unfold INT_MAX. cbn [parts]. lia.
Defined.

(** ** What a scheduling call can do to the queue *)

Lemma replaced_at_length (i : nat) (x : Event) (q : deque) :
  i < length q -> length (firstn i q ++ x :: skipn (S i) q) = length q.
Proof.
  intros Hi. rewrite length_app. cbn [length].
  rewrite length_firstn, length_skipn. lia.
Qed.

Lemma inserted_at_length (pos : nat) (x : Event) (q : deque) :
  pos <= length q -> length (firstn pos q ++ x :: skipn pos q) = S (length q).
Proof.
  intros Hp. rewrite length_app. cbn [length].
  rewrite length_firstn, length_skipn. lia.
Qed.

Lemma deque_set_length (i : nat) (x : Event) (q q' : deque) :
  deque_set i x q = Ok q' -> length q' = length q.
Proof.
  unfold deque_set. destruct (i <? length q) eqn:Hi; [|discriminate].
  apply Nat.ltb_lt in Hi. intros H. injection H as <-.
  exact (replaced_at_length i x q Hi).
Qed.

Lemma deque_insert_length (pos : nat) (x : Event) (q q' : deque) :
  deque_insert pos x q = Ok q' -> length q' = S (length q).
Proof.
  unfold deque_insert. destruct (pos <=? length q) eqn:Hp; [|discriminate].
  apply Nat.leb_le in Hp. intros H. injection H as <-.
  exact (inserted_at_length pos x q Hp).
Qed.

Lemma scheduleInternalEvent_while_length (fuel : nat) :
  forall r model i element e q q',
    scheduleInternalEvent_while fuel r model i element e q = Ok q' ->
    length q' = length q \/ length q' = S (length q).
Proof.
  induction fuel as [|fuel IH]; intros r model i element e q q' H;
    cbn [scheduleInternalEvent_while] in H; [discriminate|].
  destruct (element <? length q - 1); [|injection H as <-; auto].
  destruct (Qeq_bool (getR (getTime e)) r).
  - destruct (getModel e =? model)%N.
    + destruct (getType e =? "external")%string; [|injection H as <-; auto].
      left. eapply deque_set_length. exact H.
    + destruct (deque_at q (S element)) as [e'|]; cbn [bind] in H;
        [|discriminate].
      eapply IH. exact H.
  - destruct (deque_before q element) as [last|]; cbn [bind] in H;
      [|discriminate].
    right. eapply deque_insert_length. exact H.
Qed.

Lemma scheduleInternalEvent_for_length (fuel : nat) :
  forall r model i q q',
    scheduleInternalEvent_for fuel r model i q = Ok q' ->
    length q' = length q \/ length q' = S (length q).
Proof.
  induction fuel as [|fuel IH]; intros r model i q q' H;
    cbn [scheduleInternalEvent_for] in H; [discriminate|].
  destruct (i <? length q) eqn:Hi.
  - apply Nat.ltb_lt in Hi.
    destruct (deque_at q i) as [e|]; cbn [bind] in H; [|discriminate].
    destruct (Qeq_bool (getR (getTime e)) r) eqn:Hr.
    + destruct (getModel e =? model)%N eqn:Hm.
      * destruct (getType e =? "external")%string; [|injection H as <-; auto].
        left. eapply deque_set_length. exact H.
      * destruct (i =? length q - 1) eqn:Hlast.
        -- apply Nat.eqb_eq in Hlast. right.
           unfold push_back in H. rewrite length_snoc in H.
           cbn [scheduleInternalEvent_while] in H.
           assert (Hc : (i <? length (q ++ [InternalEvent EmptyString
                                              (mkTime r 0) model]) - 1) = true).
           { apply Nat.ltb_lt. rewrite length_snoc. lia. }
           rewrite Hc, Hr, Hm in H.
           assert (Hsi : S i = length q) by lia. rewrite Hsi in H.
           rewrite <- (app_nil_r [InternalEvent EmptyString (mkTime r 0) model])
             in H at 1.
           cbn [app] in H. rewrite deque_at_middle in H. cbn [bind] in H.
           destruct (length q) as [|k] eqn:Hlen; [lia|].
           cbn [scheduleInternalEvent_while] in H.
           assert (Hc2 : (S k <? length (q ++ [InternalEvent EmptyString
                                                 (mkTime r 0) model]) - 1)
                         = false).
           { apply Nat.ltb_ge. rewrite length_snoc. lia. }
           rewrite Hc2 in H. injection H as <-. rewrite length_snoc. lia.
        -- eapply scheduleInternalEvent_while_length. exact H.
    + destruct (Qgtb (getR (getTime e)) r).
      * right. eapply deque_insert_length. exact H.
      * eapply IH. exact H.
  - injection H as <-. right. unfold push_back. apply length_snoc.
Qed.

(** X22.  [scheduleInternalEvent] keeps every access inside the queue:
    it returns a queue for every real time, model and queue, sorted or
    not.  The queue it returns has as many entries as before or one
    more; no call removes an entry or adds two. *)
Theorem scheduleInternalEvent_in_bounds (r : Q) (model : ptr) (q : deque) :
  exists q',
    scheduleInternalEvent r model q = Ok q'
    /\ (length q' = length q \/ length q' = S (length q)).
Proof.
  destruct (scheduleInternalEvent_for_returns (S (length q)) r model 0 q)
    as [q' Hq']; [lia|lia|].
  exists q'. split; [exact Hq'|].
  eapply scheduleInternalEvent_for_length. exact Hq'.
Qed.

Lemma scheduleExternalEvent_while_result (fuel : nat) :
  forall input r model i element e q,
    match scheduleExternalEvent_while fuel input r model i element e q with
    | Ok q' => length q' = length q \/ length q' = S (length q)
    | Fault f => f = OutOfBounds \/ f = OutOfFuel
    end.
Proof.
  induction fuel as [|fuel IH]; intros input r model i element e q;
    cbn [scheduleExternalEvent_while]; [auto|].
  destruct (getType e =? "internal")%string.
  - destruct (getModel e =? model)%N.
    + destruct (deque_set i _ q) as [q'|f] eqn:Hs.
      * left. eapply deque_set_length. exact Hs.
      * unfold deque_set in Hs. destruct (i <? length q); inversion Hs. auto.
    + destruct (deque_at q (S element)) as [e'|f] eqn:Ha; cbn [bind].
      * apply IH.
      * unfold deque_at in Ha. destruct (nth_error q (S element));
          inversion Ha. auto.
  - destruct (deque_at q (S element)) as [e'|f] eqn:Ha; cbn [bind].
    + destruct (Qeq_bool (getR (getTime e')) r); [apply IH|].
      destruct (deque_insert (S element) _ q) as [q'|f] eqn:Hs.
      * right. eapply deque_insert_length. exact Hs.
      * unfold deque_insert in Hs. destruct (S element <=? length q);
          inversion Hs. auto.
    + unfold deque_at in Ha. destruct (nth_error q (S element));
        inversion Ha. auto.
Qed.

Lemma scheduleExternalEvent_for_result (fuel : nat) :
  forall input r model i q,
    match scheduleExternalEvent_for fuel input r model i q with
    | Ok q' => length q' = length q \/ length q' = S (length q)
    | Fault f => f = OutOfBounds \/ f = OutOfFuel
    end.
Proof.
  induction fuel as [|fuel IH]; intros input r model i q;
    cbn [scheduleExternalEvent_for]; [auto|].
  destruct (i <? length q).
  - destruct (deque_at q i) as [e|f] eqn:Ha; cbn [bind].
    + destruct (Qeq_bool (getR (getTime e)) r);
        [apply scheduleExternalEvent_while_result|].
      destruct (Qgtb (getR (getTime e)) r); [|apply IH].
      destruct (deque_insert i _ q) as [q'|f] eqn:Hs.
      * right. eapply deque_insert_length. exact Hs.
      * unfold deque_insert in Hs. destruct (i <=? length q); inversion Hs.
        auto.
    + unfold deque_at in Ha. destruct (nth_error q i); inversion Ha. auto.
  - right. unfold push_back. apply length_snoc.
Qed.

(** X23.  [scheduleExternalEvent] either returns a queue with as many
    entries as before or one more, or it reads outside the queue; it
    fails in no other way, and no call removes an entry or adds two. *)
Theorem scheduleExternalEvent_result (input : string) (r : Q) (model : ptr)
    (q : deque) :
  match scheduleExternalEvent input r model q with
  | Ok q' => length q' = length q \/ length q' = S (length q)
  | Fault f => f = OutOfBounds
  end.
Proof.
  pose proof (scheduleExternalEvent_for_result (S (length q)) input r model 0 q)
    as H.
  pose proof (scheduleExternalEvent_fuel input r model q) as Hfuel.
  unfold scheduleExternalEvent in *.
  destruct (scheduleExternalEvent_for (S (length q)) input r model 0 q)
    as [q'|f]; [exact H|].
  destruct H as [H|H]; [exact H|]. subst f. contradiction.
Qed.

(** ** Merging keeps the ordering invariant *)

Lemma pairwise_replace (ok : Event -> Event -> bool) (e e' : Event)
    (post : deque) :
  (forall x, ok e' x = ok e x) -> (forall x, ok x e' = ok x e) ->
  forall pre, pairwise ok (pre ++ e' :: post) = pairwise ok (pre ++ e :: post).
Proof.
  intros Hl Hr. induction pre as [|a pre IH]; cbn [app pairwise].
  - f_equal. induction post as [|x post IHp]; cbn [forallb]; [reflexivity|].
    rewrite Hl, IHp. reflexivity.
  - rewrite IH, !forallb_app. cbn [forallb]. rewrite Hr. reflexivity.
Qed.

Lemma queue_invariant_same_slot (e e' : Event) (pre post : deque) :
  same_slot e e' ->
  queue_invariant (pre ++ e' :: post) = queue_invariant (pre ++ e :: post).
Proof.
  intros (Hr & Hc & Hm).
  unfold queue_invariant, sorted_by_r, increasing_c, one_per_model_r.
  rewrite !(pairwise_replace _ e e'); try reflexivity; intros x;
    rewrite <- ?Hc, <- ?Hm, <- ?Hr; reflexivity.
Qed.

(** X24.  The merges keep the ordering invariant.  On a queue that
    satisfies it, whose first entry at real time [r] belongs to the
    model of the call, [scheduleInternalEvent] returns a queue that
    satisfies it, and so does [scheduleExternalEvent] when that entry
    is an internal event. *)
Theorem own_entry_merge_keeps_invariant (input : string) (r : Q) (model : ptr)
    (pre post : deque) (e : Event) :
  Forall (fun x => (eventR x < r)%Q) pre ->
  (eventR e == r)%Q -> getModel e = model ->
  queue_invariant (pre ++ e :: post) = true ->
  (exists q',
     scheduleInternalEvent r model (pre ++ e :: post) = Ok q'
     /\ queue_invariant q' = true)
  /\ (getType e = "internal" ->
      exists q',
        scheduleExternalEvent input r model (pre ++ e :: post) = Ok q'
        /\ queue_invariant q' = true).
Proof.
  intros Hpre Hr Hm Hinv. split.
  - rewrite scheduleInternalEvent_own_first by assumption.
    destruct (getType e =? "external")%string; eexists;
      (split; [reflexivity|]); [|exact Hinv].
    rewrite (queue_invariant_same_slot e); [exact Hinv|].
    repeat split; [exact Hr|exact Hm].
  - intros Ht. rewrite scheduleExternalEvent_own_first by assumption.
    eexists. split; [reflexivity|].
    rewrite (queue_invariant_same_slot e); [exact Hinv|].
    repeat split; [exact Hr|exact Hm].
Qed.

Lemma own_entry_merge_keeps_invariant_witness :
  (exists q',
     scheduleInternalEvent 3 1%N
       ([ExternalEvent "a" (mkTime 1 0) 1%N;
         ExternalEvent "b" (mkTime 1 1) 2%N] ++
        InternalEvent EmptyString (mkTime 3 0) 1%N ::
        [InternalEvent EmptyString (mkTime 4 0) 2%N]) = Ok q'
     /\ queue_invariant q' = true)
  /\ (getType (InternalEvent EmptyString (mkTime 3 0) 1%N) = "internal" ->
      exists q',
        scheduleExternalEvent "c" 3 1%N
          ([ExternalEvent "a" (mkTime 1 0) 1%N;
            ExternalEvent "b" (mkTime 1 1) 2%N] ++
           InternalEvent EmptyString (mkTime 3 0) 1%N ::
           [InternalEvent EmptyString (mkTime 4 0) 2%N]) = Ok q'
        /\ queue_invariant q' = true).
Proof.
  apply (own_entry_merge_keeps_invariant "c" 3 1%N
           [ExternalEvent "a" (mkTime 1 0) 1%N;
            ExternalEvent "b" (mkTime 1 1) 2%N]
           [InternalEvent EmptyString (mkTime 4 0) 2%N]
           (InternalEvent EmptyString (mkTime 3 0) 1%N)).
  - repeat constructor; q_decide.
  - q_decide.
  - reflexivity.
  - vm_compute. reflexivity.
Defined.

(** ** The outputs recorded in the first loop of a step *)

Lemma collectOutputs_run (events : deque) :
  forall ms mem ms' mem',
    Sim.collectOutputs events ms mem = Ok (ms', mem') ->
    objects mem' = objects mem
    /\ forall m,
         map_find N.ltb m ms' =
           if fires events m then output_of (objects mem) m
           else map_find N.ltb m ms.
Proof.
  induction events as [|e rest IH]; intros ms mem ms' mem' H;
    cbn [Sim.collectOutputs] in H.
  - injection H as <- <-. split; reflexivity.
  - unfold fires. cbn [existsb]. fold (fires rest).
    destruct (negb (getType e =? "external")%string).
    + unfold call_lambda in H.
      destruct (deref (objects mem) (getModel e)) as [o|] eqn:Hd;
        cbn [bind] in H; [|discriminate].
      apply IH in H. cbn [objects] in H. destruct H as [Hobj Hfind].
      split; [exact Hobj|]. intros m. rewrite Hfind, map_find_assign_N.
      rewrite andb_true_r, (N.eqb_sym (getModel e) m).
      destruct (N.eqb_spec m (getModel e)) as [->|Hne]; cbn [orb];
        [|reflexivity].
      unfold output_of. rewrite Hd.
      destruct (fires rest (getModel e)); reflexivity.
    + apply IH in H. destruct H as [Hobj Hfind].
      split; [exact Hobj|]. intros m.
      rewrite andb_false_r. cbn [orb]. apply Hfind.
Qed.

(** X25.  When the first loop of a step completes, the model map holds
    for every model with an imminent internal or confluent event the
    output [lambda] gives for it, whatever was recorded before, and for
    every other model what was recorded before; a model that was not
    registered gets its entry here. *)
Theorem collectOutputs_records (events : deque) (ms ms' : list (ptr * string))
    (mem mem' : Memory) (m : ptr) :
  Sim.collectOutputs events ms mem = Ok (ms', mem') ->
  map_find N.ltb m ms' =
    if fires events m then output_of (objects mem) m
    else map_find N.ltb m ms.
Proof.
  intros H. apply collectOutputs_run in H. apply H.
Qed.

Lemma collectOutputs_records_witness :
  map_find N.ltb 2%N [(1%N, EmptyString); (2%N, "1 part completed")] =
    if fires [ExternalEvent "1" (mkTime 3 0) 1%N;
              InternalEvent EmptyString (mkTime 3 1) 2%N] 2%N
    then output_of [(1%N, Press); (2%N, Drill)] 2%N
    else map_find N.ltb 2%N [(1%N, EmptyString)].
Proof.
  apply (collectOutputs_records
           [ExternalEvent "1" (mkTime 3 0) 1%N;
            InternalEvent EmptyString (mkTime 3 1) 2%N]
           [(1%N, EmptyString)]
           [(1%N, EmptyString); (2%N, "1 part completed")]
           (mkMemory [(1%N, Press); (2%N, Drill)] [])
           (mkMemory [(1%N, Press); (2%N, Drill)] [CallLambda 2%N]) 2%N).
  reflexivity.
Defined.
